(** * drakcore.ipt_disasm: fault-to-frame resolution, manifest building
      and decoder-output normalisation

    A shallow embedding of [drakcore/ipt_disasm.py].  Python integers are
    [Z], [bytes] are [list byte], [str] values that are only compared or
    concatenated are [string], dictionaries are [gmap]s, and logging calls
    are recorded in an explicit trace. *)

From Stdlib Require Import ZArith List Lia Sorting.Sorted.
From Stdlib Require Import Strings.String Strings.Ascii Strings.Byte Strings.HexString.
From stdpp Require Import base option list gmap strings.

Local Open Scope string_scope.
Local Open Scope list_scope.
Local Open Scope Z_scope.

(** ** Page arithmetic (drakcore.ipt_utils) *)

Module Page.

Definition PAGE_SIZE : Z := 0x1000.

(** Modelled from the spec: [page_align] is defined in
    [drakcore.ipt_utils]; the glossary describes it as "truncation of an
    address to its containing 4096-byte page boundary". *)
Definition page_align (addr : Z) : Z := Z.land addr (Z.lnot 0xFFF).

(** Modelled from the spec: [is_page_aligned] is defined in
    [drakcore.ipt_utils]; an aligned value lies on a "4096-byte
    boundary". *)
Definition is_page_aligned (addr : Z) : bool := Z.land addr 0xFFF =? 0.

End Page.
Export Page.

(** ** Event records (the output of [load_drakvuf_output]) *)

(** Modelled from the spec: the loader and the accessors [get_fault_va]
    and [get_fault_pa] are defined in [drakcore.ipt_utils]; the data model
    gives a fault a process identity, a virtual address and a physical
    address. *)
Record Fault := mkFault {
  fault_cr3 : Z;
  get_fault_va : Z;
  get_fault_pa : Z;
}.

(** Modelled from the spec: [get_frame_va] and [get_trap_pa] are defined
    in [drakcore.ipt_utils]; the data model gives a frame a process
    identity, a virtual address, a physical address and the name of its
    dump file, which is what [frame["DumpFile"]] reads.  The file name of a
    frame whose content was not saved is the sentinel ["(null)"]. *)
Record Frame := mkFrame {
  frame_cr3 : Z;
  get_frame_va : Z;
  get_trap_pa : Z;
  DumpFile : string;
}.

(** A record of [codemon.log], discriminated by its ["EventType"]. *)
Inductive Event :=
  | PageFault (f : Fault)     (* "pagefault" *)
  | ExecFrame (f : Frame)     (* "execframe" *)
  | OtherEvent (tag : string).

Global Instance Fault_eq_dec : EqDecision Fault.
Proof. solve_decision. Defined.
Global Instance Frame_eq_dec : EqDecision Frame.
Proof. solve_decision. Defined.

Class HasCR3 (A : Type) := cr3_of : A → Z.
Global Instance Fault_cr3 : HasCR3 Fault := fault_cr3.
Global Instance Frame_cr3 : HasCR3 Frame := frame_cr3.

(** Modelled from the spec: [select_cr3 pred entries] of
    [drakcore.ipt_utils] keeps the entries whose process identity
    satisfies [pred]. *)
Definition select_cr3 {A} `{HasCR3 A} (pred : Z → bool) (entries : list A) : list A :=
  List.filter (λ e, pred (cr3_of e)) entries.

(** ** Traces of logging calls and of log loading *)

Inductive level := DEBUG | INFO | WARNING | CRITICAL.

Inductive log_arg :=
  | ArgInt (z : Z)
  | ArgStr (s : string).

Inductive effect :=
  | Log (lvl : level) (fmt : string) (args : list log_arg)
  | LoadLog (path : string).

Record Traced (A : Type) := mkTraced { trace : list effect; value : A }.
Arguments mkTraced {A} _ _.
Arguments trace {A} _.
Arguments value {A} _.

Global Instance Traced_ret : MRet Traced := λ A a, mkTraced [] a.
Global Instance Traced_bind : MBind Traced := λ A B f m,
  let r := f (value m) in mkTraced (trace m ++ trace r) (value r).

Definition emit (e : effect) : Traced unit := mkTraced [e] tt.
Definition log_debug fmt args := emit (Log DEBUG fmt args).
Definition log_info fmt args := emit (Log INFO fmt args).
Definition log_warning fmt args := emit (Log WARNING fmt args).
Definition log_critical fmt args := emit (Log CRITICAL fmt args).

Definition is_warning (e : effect) : bool :=
  match e with Log WARNING _ _ => true | _ => false end.

(** ** FrameIndex *)

(** A [defaultdict(list)]: reading a missing key yields the empty list
    and, as in Python, leaves that empty list behind in the dictionary. *)
Definition dd_getitem (m : gmap Z (list Frame)) (k : Z)
    : list Frame * gmap Z (list Frame) :=
  match m !! k with
  | Some l => (l, m)
  | None => ([], <[k := []]> m)
  end.

(** [frame_map[addr].append(frame)] *)
Definition dd_append (m : gmap Z (list Frame)) (k : Z) (frame : Frame)
    : gmap Z (list Frame) :=
  let '(l, m') := dd_getitem m k in <[k := l ++ [frame]]> m'.

Definition build_frame_va_map (frames : list Frame) : gmap Z (list Frame) :=
  foldl (λ frame_map frame, dd_append frame_map (page_align (get_frame_va frame)) frame)
        ∅ frames.

Fixpoint select_frame (frames : list Frame) (phys_addr : Z) : option Frame :=
  match frames with
  | [] => None
  | frame :: rest =>
      if phys_addr =? page_align (get_trap_pa frame) then Some frame
      else select_frame rest phys_addr
  end.

(** ** FaultResolver *)

Record match_state := mkMatch {
  frame_map : gmap Z (list Frame);
  foreign_frame_map : gmap Z (list Frame);
  unresolved : Z;
  foreign_resolved : Z;
  results : list (Z * string);
}.

(** One iteration of the [for fault in page_faults] loop. *)
Definition match_step (st : match_state) (fault : Fault) : Traced match_state :=
  let va := get_fault_va fault in
  let pa := get_fault_pa fault in
  let va_page := page_align va in
  let pa_page := page_align pa in
  let '(own, fm) := dd_getitem (frame_map st) va_page in
  let st := mkMatch fm (foreign_frame_map st) (unresolved st)
                    (foreign_resolved st) (results st) in
  let '(frame, st) :=
    match select_frame own pa_page with
    | Some frame => (Some frame, st)
    | None =>
        let '(foreign, ffm) := dd_getitem (foreign_frame_map st) va_page in
        match select_frame foreign pa_page with
        | None =>
            (None, mkMatch (frame_map st) ffm (unresolved st + 1)
                           (foreign_resolved st) (results st))
        | Some frame =>
            (Some frame, mkMatch (frame_map st) ffm (unresolved st)
                                 (foreign_resolved st + 1) (results st))
        end
    end in
  log_info "%#016x -> %s"
    [ArgInt va_page; ArgStr (from_option DumpFile "?" frame)] ;;
  mret (match frame with
        | Some frame =>
            mkMatch (frame_map st) (foreign_frame_map st) (unresolved st)
                    (foreign_resolved st) (results st ++ [(va_page, DumpFile frame)])
        | None => st
        end).

Fixpoint match_loop (st : match_state) (page_faults : list Fault) : Traced match_state :=
  match page_faults with
  | [] => mret st
  | fault :: rest => st' ← match_step st fault; match_loop st' rest
  end.

Definition match_init (frames foreign_frames : list Frame) : match_state :=
  mkMatch (build_frame_va_map frames) (build_frame_va_map foreign_frames) 0 0 [].

Definition match_frames (page_faults : list Fault) (frames foreign_frames : list Frame)
    : Traced (list (Z * string)) :=
  log_info "Matching frames for each fault" [] ;;
  st ← match_loop (match_init frames foreign_frames) page_faults;
  log_info "Failed to resolve %d faults. Let's hope they're not related to code"
    [ArgInt (unresolved st)] ;;
  log_info "Resolved %d from external CR3" [ArgInt (foreign_resolved st)] ;;
  mret (results st).

(** ** Paths and the dump directory *)

Module PathLib.

(** A pure POSIX path as [pathlib] keeps it: the root (empty, ["/"] or
    ["//"]) and the components, with empty and ["."] components
    dropped. *)
Record Path := mkPath { root : string; parts : list string }.

Fixpoint split_slash (s : string) : list string :=
  match s with
  | EmptyString => [""]
  | String c s' =>
      if Ascii.eqb c "/" then "" :: split_slash s'
      else match split_slash s' with
           | [] => [String c ""]
           | h :: t => String c h :: t
           end
  end.

Definition keep_part (s : string) : bool :=
  negb (String.eqb s "") && negb (String.eqb s ".").

Definition parse_root (s : string) : string :=
  match s with
  | String "/" (String "/" (String "/" _)) => "/"
  | String "/" (String "/" _) => "//"
  | String "/" _ => "/"
  | _ => ""
  end.

(** [Path(s)] *)
Definition parse_path (s : string) : Path :=
  mkPath (parse_root s) (List.filter keep_part (split_slash s)).

(** [p / seg]: an absolute segment replaces [p]. *)
Definition path_div (p : Path) (seg : string) : Path :=
  let q := parse_path seg in
  if String.eqb (root q) "" then mkPath (root p) (parts p ++ parts q) else q.

(** [p.name] *)
Definition path_name (p : Path) : string := List.last (parts p) "".

Fixpoint join_slash (l : list string) : string :=
  match l with
  | [] => ""
  | [x] => x
  | x :: rest => x +:+ "/" +:+ join_slash rest
  end.

(** [str(p)] *)
Definition path_str (p : Path) : string :=
  match root p, parts p with
  | EmptyString, [] => "."
  | r, l => r +:+ join_slash l
  end.

End PathLib.
Export PathLib.

Infix "//" := path_div (at level 40, left associativity).

(** A snapshot of the file system as [exists] and [stat] see it: the size
    of every path that exists, keyed by the path as a string. *)
Abbreviation FileSystem := (gmap string Z).

(** [f"{z:x}"] *)
Definition format_x (z : Z) : string :=
  match z with
  | Z0 => "0"
  | Zpos p => HexString.Raw.of_pos p ""
  | Zneg p => "-" +:+ HexString.Raw.of_pos p ""
  end.

(** [hex(z)] *)
Definition hex (z : Z) : string := HexString.of_Z z.

(** ** ManifestBuilder *)

(** One iteration of the [for addr, fname in mappings] loop; [pages] is
    the list being appended to. *)
Definition manifest_step (analysis_dir : Path) (fs : FileSystem)
    (pages : list string) (mapping : Z * string) : Traced (list string) :=
  let '(addr, fname) := mapping in
  let name := path_name (parse_path fname) in
  let fpath := analysis_dir // "ipt" // "dumps" // name in
  match fs !! path_str fpath with
  | None =>
      log_warning ("Missing " +:+ path_str fpath) [] ;;
      mret pages
  | Some st_size =>
      if negb (String.eqb (path_name fpath) "(null)") && (st_size =? 0x1000)
      then mret (pages ++ ["--raw"] ++ [path_str fpath +:+ ":0x" +:+ format_x addr])
      else mret pages
  end.

Fixpoint manifest_loop (analysis_dir : Path) (fs : FileSystem)
    (pages : list string) (mappings : list (Z * string)) : Traced (list string) :=
  match mappings with
  | [] => mret pages
  | mapping :: rest =>
      pages' ← manifest_step analysis_dir fs pages mapping;
      manifest_loop analysis_dir fs pages' rest
  end.

(** ** Diagnostics and ordering of the faults *)

(** Stable insertion by key: [x] goes after every element whose key is not
    larger, which is where a stable sort leaves it. *)
Fixpoint insert_by_key {A} (key : A → Z) (x : A) (l : list A) : list A :=
  match l with
  | [] => [x]
  | y :: l' => if key x <? key y then x :: y :: l' else y :: insert_by_key key x l'
  end.

(** [l.sort(key=key)] and [sorted(l, key=key)] *)
Definition sort_by_key {A} (key : A → Z) (l : list A) : list A :=
  foldl (λ acc x, insert_by_key key x acc) [] l.

(** The first loop of [debug_faults]: [current] collects a run of
    consecutive pages and is moved to [ranges] when the run breaks. *)
Fixpoint debug_ranges (ranges : list (list Z)) (current : list Z)
    (pairs : list (Z * Z)) : list (list Z) :=
  match pairs with
  | [] => ranges
  | (a, b) :: rest =>
      let current := current ++ [a] in
      if b - a =? 0x1000 then debug_ranges ranges current rest
      else debug_ranges (ranges ++ [current]) [] rest
  end.

(** [length] is a float quotient printed with [%d]; it is the integer
    quotient as long as the addresses fit 64 bits. *)
Definition debug_faults (page_faults : list Fault) : Traced unit :=
  let faulted_pages :=
    sort_by_key id (remove_dups (map (λ fault, page_align (get_fault_va fault)) page_faults)) in
  let ranges := debug_ranges [] [] (zip faulted_pages (tail faulted_pages)) in
  mkTraced
    (map (λ chunk,
            let beg := hd 0 chunk in
            let end_ := List.last chunk 0 + 0xFFF in
            let length := (end_ + 1 - beg) / 0x1000 in
            Log DEBUG "%#016x - %#016x (%d pages)" [ArgInt beg; ArgInt end_; ArgInt length])
         ranges)
    tt.

(** ** The pipeline: [get_ptxed_cmdline] *)

Section Pipeline.

(** [load_drakvuf_output] of [drakcore.ipt_utils]: the events of a log
    file, by path. *)
Variable load_drakvuf_output : string → list Event.

Definition load_log (p : Path) : Traced (list Event) :=
  mkTraced [LoadLog (path_str p)] (load_drakvuf_output (path_str p)).

Definition get_ptxed_cmdline (fs : FileSystem) (analysis_dir : Path) (cr3_value : Z)
    (pt_stream : string) (use_blocks : bool) : Traced (option (list string)) :=
  log_debug "Analysis directory: %s" [ArgStr (path_str analysis_dir)] ;;
  log_debug "CR3: %#x" [ArgInt cr3_value] ;;
  if negb (is_page_aligned cr3_value) then
    log_critical "CR3 must be aligned to page! Got %#x" [ArgInt cr3_value] ;;
    mret None
  else
    codemon_out ← load_log (analysis_dir // "codemon.log");
    let page_faults :=
      omap (M:=list) (λ obj, match obj with PageFault f => Some f | _ => None end)
           codemon_out in
    let executed_frames :=
      omap (M:=list) (λ obj, match obj with ExecFrame f => Some f | _ => None end)
           codemon_out in
    let faults_in_process := select_cr3 (λ cr3, cr3 =? cr3_value) page_faults in
    let frames_in_process := select_cr3 (λ cr3, cr3 =? cr3_value) executed_frames in
    let frames_out_process := select_cr3 (λ cr3, negb (cr3 =? cr3_value)) executed_frames in
    log_info "%d frames dumped from this process" [ArgInt (Z.of_nat (length frames_in_process))] ;;
    log_info "%d frames outside this process" [ArgInt (Z.of_nat (length frames_out_process))] ;;
    log_info "%d faults in process" [ArgInt (Z.of_nat (length faults_in_process))] ;;
    let faults_in_process := sort_by_key get_fault_va faults_in_process in
    debug_faults faults_in_process ;;
    mappings ← match_frames faults_in_process frames_in_process frames_out_process;
    pages ← manifest_loop analysis_dir fs [] mappings;
    let binary :=
      if use_blocks then ["drak-ipt-blocks"; "--cr3"; hex cr3_value]
      else ["ptxed"; "--block-decoder"; "--block:show-blocks"] in
    let ptxed_cmdline := binary ++ pages ++ ["--pt"; pt_stream] in
    log_info "IPT: Succesfully generated ptxed command line" [] ;;
    mret (Some ptxed_cmdline).

End Pipeline.

(** ** TraceNormalizer *)

(** The exceptions the two generators can raise. *)
Inductive exn :=
  | UnicodeDecodeError
  | ValueError
  | KeyError
  | TypeError
  | JSONDecodeError.

(** What a generator produced: the values it yielded, in order, and the
    exception that ended it, if any. *)
Record generated := mkGen { yielded : list Z; raised : option exn }.

Module Bytes.

Abbreviation bytes := (list byte).

Global Instance byte_eq_decision : EqDecision byte := Byte.byte_eq_dec.

(** [b"..."] *)
Definition lit (s : string) : bytes := list_byte_of_string s.

(** [line.startswith(prefix)] *)
Fixpoint startswith (line prefix : bytes) : bool :=
  match prefix, line with
  | [], _ => true
  | p :: prefix', c :: line' => Byte.eqb p c && startswith line' prefix'
  | _ :: _, [] => false
  end.

(** The bytes [bytes.strip] removes: space, tab, line feed, carriage
    return, vertical tab and form feed. *)
Definition is_space (c : byte) : bool :=
  let n := Byte.to_N c in
  ((n =? 0x20) || ((0x09 <=? n) && (n <=? 0x0D)))%N.

Fixpoint lstrip (line : bytes) : bytes :=
  match line with
  | c :: rest => if is_space c then lstrip rest else line
  | [] => []
  end.

Definition rstrip (line : bytes) : bytes := rev (lstrip (rev line)).

(** [line.strip()] *)
Definition strip (line : bytes) : bytes := rstrip (lstrip line).

Definition is_cont (c : byte) : bool :=
  let n := Byte.to_N c in ((0x80 <=? n) && (n <=? 0xBF))%N.

Definition cont_bits (c : byte) : N := N.land (Byte.to_N c) 0x3F.

Definition in_range (lo hi : N) (c : byte) : bool :=
  let n := Byte.to_N c in ((lo <=? n) && (n <=? hi))%N.

(** [bs.decode()]: strict UTF-8, to the list of code points; [None] is
    [UnicodeDecodeError].  Overlong forms, surrogates and code points
    above U+10FFFF are rejected, as are truncated sequences. *)
Fixpoint decode (bs : bytes) : option (list N) :=
  match bs with
  | [] => Some []
  | b0 :: r0 =>
      let n0 := Byte.to_N b0 in
      if (n0 <? 0x80)%N then cons n0 <$> decode r0
      else if in_range 0xC2 0xDF b0 then
        match r0 with
        | b1 :: r1 =>
            if is_cont b1
            then cons (N.land n0 0x1F * 64 + cont_bits b1)%N <$> decode r1
            else None
        | _ => None
        end
      else if in_range 0xE0 0xEF b0 then
        match r0 with
        | b1 :: b2 :: r2 =>
            if (if (n0 =? 0xE0)%N then in_range 0xA0 0xBF b1
                else if (n0 =? 0xED)%N then in_range 0x80 0x9F b1
                else is_cont b1) && is_cont b2
            then cons ((N.land n0 0x0F * 64 + cont_bits b1) * 64 + cont_bits b2)%N
                   <$> decode r2
            else None
        | _ => None
        end
      else if in_range 0xF0 0xF4 b0 then
        match r0 with
        | b1 :: b2 :: b3 :: r3 =>
            if (if (n0 =? 0xF0)%N then in_range 0x90 0xBF b1
                else if (n0 =? 0xF4)%N then in_range 0x80 0x8F b1
                else is_cont b1) && is_cont b2 && is_cont b3
            then cons (((N.land n0 0x07 * 64 + cont_bits b1) * 64 + cont_bits b2) * 64
                       + cont_bits b3)%N
                   <$> decode r3
            else None
        | _ => None
        end
      else None
  end.

(** The code points of a [str] literal of ASCII characters. *)
Definition str (s : string) : list N := map Byte.to_N (list_byte_of_string s).

(** [c in "0123456789abcdef"] for a character [c] *)
Definition in_hexdigits (c : N) : bool :=
  (((0x30 <=? c) && (c <=? 0x39)) || ((0x61 <=? c) && (c <=? 0x66)))%N.

Definition hexdigit_value (c : byte) : option Z :=
  let n := Byte.to_N c in
  if ((0x30 <=? n) && (n <=? 0x39))%N then Some (Z.of_N n - 0x30)
  else if ((0x61 <=? n) && (n <=? 0x66))%N then Some (Z.of_N n - 0x61 + 10)
  else if ((0x41 <=? n) && (n <=? 0x46))%N then Some (Z.of_N n - 0x41 + 10)
  else None.

Fixpoint hex_digits_value (acc : Z) (bs : bytes) : option Z :=
  match bs with
  | [] => Some acc
  | c :: rest =>
      match hexdigit_value c with
      | Some d => hex_digits_value (acc * 16 + d) rest
      | None => None
      end
  end.

(** [int(bs, 16)] on a run of hexadecimal digits, which is all the guard
    in [generate_ptxed] lets through; [None] is [ValueError], raised
    for the empty run. *)
Definition int16 (bs : bytes) : option Z :=
  match bs with
  | [] => None
  | _ => hex_digits_value 0 bs
  end.

End Bytes.
Import Bytes.

(** *** Format B: the output of ptxed *)

Inductive step_result :=
  | Next (ys : list Z) (prev_block : bool)
  | Raise (ys : list Z) (e : exn).

(** The annotation lines the loop passes over with [continue]. *)
Definition annotation_prefixes : list bytes :=
  map lit ["[cbr"; "[ptwrite"; "[enabled"; "[disabled"; "[resumed"; "[exec mode"].

(** The second half of the loop body, after a possible yield of [ys]. *)
Definition ptxed_classify (ys : list Z) (prev_block : bool) (line : bytes) : step_result :=
  if existsb (startswith line) annotation_prefixes then Next ys prev_block
  else
    match decode (strip line) with
    | None => Raise ys UnicodeDecodeError
    | Some s => if bool_decide (s = str "[block]") then Next ys true else Next ys prev_block
    end.

(** One iteration of the [for line in process.stdout] loop. *)
Definition ptxed_step (prev_block : bool) (line : bytes) : step_result :=
  if prev_block then
    match decode (take 16 line) with
    | None => Raise [] UnicodeDecodeError
    | Some s =>
        if forallb in_hexdigits s then
          match int16 (take 16 line) with
          | None => Raise [] ValueError
          | Some v => ptxed_classify [v] false line
          end
        else ptxed_classify [] prev_block line
    end
  else ptxed_classify [] prev_block line.

Fixpoint ptxed_loop (prev_block : bool) (stdout : list bytes) : generated :=
  match stdout with
  | [] => mkGen [] None
  | line :: rest =>
      match ptxed_step prev_block line with
      | Next ys prev_block' =>
          let g := ptxed_loop prev_block' rest in mkGen (ys ++ yielded g) (raised g)
      | Raise ys e => mkGen ys (Some e)
      end
  end.

Definition generate_ptxed (stdout : list bytes) : generated := ptxed_loop false stdout.

(** *** Format A: the output of drak-ipt-blocks *)

(** A value of a decoded JSON object, as far as [generate_ipt_blocks]
    looks at it: a string, or anything else (number, boolean, null, array,
    object). *)
Inductive jvalue :=
  | JString (s : string)
  | JNotString.

(** The result of [json.loads]: an object, or any other JSON value. *)
Inductive jdoc :=
  | JDict (d : gmap string jvalue)
  | JNotDict.

Global Instance jvalue_eq_dec : EqDecision jvalue.
Proof. solve_decision. Defined.

Section FormatA.

(** [json.loads]; [None] is [JSONDecodeError]. *)
Variable json_loads : bytes → option jdoc.
(** [int(s, 16)] on a [str]; [None] is [ValueError]. *)
Variable int_str16 : string → option Z.

(** One iteration of the loop: an exception, or the value to yield, if
    any. *)
Definition ipt_blocks_step (line : bytes) : exn + option Z :=
  match json_loads line with
  | None => inl JSONDecodeError
  | Some JNotDict => inl TypeError
  | Some (JDict entry) =>
      match entry !! "event" with
      | None => inl KeyError
      | Some event =>
          if bool_decide (event = JString "block_executed") then
            match entry !! "data" with
            | None => inl KeyError
            | Some JNotString => inl TypeError
            | Some (JString data) =>
                match int_str16 data with
                | None => inl ValueError
                | Some v => inr (Some v)
                end
            end
          else inr None
      end
  end.

Fixpoint generate_ipt_blocks (stdout : list bytes) : generated :=
  match stdout with
  | [] => mkGen [] None
  | line :: rest =>
      match ipt_blocks_step line with
      | inl e => mkGen [] (Some e)
      | inr y =>
          let g := generate_ipt_blocks rest in
          mkGen (option_list y ++ yielded g) (raised g)
      end
  end.

End FormatA.

(** * Vocabulary of the statements *)

(** [lookup]: the group of a page, empty when the page has none. *)
Definition lookup_frames (m : gmap Z (list Frame)) (k : Z) : list Frame := default [] (m !! k).

(** The frames of a pool on a given virtual page, in pool order. *)
Definition on_page (k : Z) (frame : Frame) : bool :=
  page_align (get_frame_va frame) =? k.

Definition candidates (frames : list Frame) (k : Z) : list Frame := List.filter (on_page k) frames.

(** A frame answers a fault when both of their pages agree. *)
Definition answers (fault : Fault) (frame : Frame) : Prop :=
  page_align (get_frame_va frame) = page_align (get_fault_va fault)
  ∧ page_align (get_trap_pa frame) = page_align (get_fault_pa fault).

(** A fault that no frame of either pool answers. *)
Definition unanswered (frames foreign_frames : list Frame) (fault : Fault) : Prop :=
  Forall (λ frame, ¬ answers fault frame) frames
  ∧ Forall (λ frame, ¬ answers fault frame) foreign_frames.

(** The log line of one iteration of the resolver. *)
Definition fault_line (va_page : Z) (name : string) : effect :=
  Log INFO "%#016x -> %s" [ArgInt va_page; ArgStr name].

(** The two dictionaries of a state still index the two pools. *)
Definition indexes (frames foreign_frames : list Frame) (st : match_state) : Prop :=
  (∀ k, lookup_frames (frame_map st) k = candidates frames k)
  ∧ (∀ k, lookup_frames (foreign_frame_map st) k = candidates foreign_frames k).

(** Where the manifest builder looks for the dump of a mapping entry. *)
Definition dump_path (analysis_dir : Path) (fname : string) : Path :=
  analysis_dir // "ipt" // "dumps" // path_name (parse_path fname).

(** The raw-page argument of an entry: the flag and the file paired with
    its load address. *)
Definition raw_page_arg (analysis_dir : Path) (mapping : Z * string) : list string :=
  ["--raw"; path_str (dump_path analysis_dir mapping.2) +:+ ":0x" +:+ format_x mapping.1].

(** What an entry adds to an empty list of arguments. *)
Definition contribution (analysis_dir : Path) (fs : FileSystem) (mapping : Z * string)
    : list string :=
  value (manifest_step analysis_dir fs [] mapping).

(** A line of ASCII text. *)
Definition is_ascii (line : bytes) : Prop := Forall (λ c, (Byte.to_N c < 0x80)%N) line.

(** Every byte among the first sixteen of the line (all of them, when the
    line is shorter) is one of [0123456789abcdef]. *)
Definition hex_prefix (line : bytes) : bool :=
  forallb (λ c, in_hexdigits (Byte.to_N c)) (take 16 line).

(** The value of a lower-case hexadecimal digit and of a run of them, most
    significant digit first. *)
Definition digit (c : byte) : Z :=
  let n := Z.of_N (Byte.to_N c) in if n <=? 0x39 then n - 0x30 else n - 0x57.

Definition hex_value (bs : bytes) : Z := foldl (λ acc c, acc * 16 + digit c) 0 bs.

Definition is_annotation (line : bytes) : bool :=
  existsb (startswith line) annotation_prefixes.

(** The marker line: [[block]] once surrounding white space is removed. *)
Definition is_marker (line : bytes) : bool := bool_decide (strip line = lit "[block]").

(** Format B as a two-state machine: [expecting] is set by a marker line
    and cleared by the line that yields an address, and by nothing else. *)
Fixpoint expected_ptxed (expecting : bool) (stdout : list bytes) : list Z :=
  match stdout with
  | [] => []
  | line :: rest =>
      if expecting && hex_prefix line
      then hex_value (take 16 line) :: expected_ptxed false rest
      else expected_ptxed (expecting || is_marker line) rest
  end.

(** What the line iterator hands out when the output is text: a
    non-empty line of ASCII characters. *)
Definition text_line (line : bytes) : Prop := line ≠ [] ∧ is_ascii line.

Global Instance text_line_dec line : Decision (text_line line).
Proof. unfold text_line, is_ascii. apply _. Defined.

(** The line feed that ends a line. *)
Definition LF : bytes := [Byte.x0a].

(** Format A: a record carries the tag ["block_executed"]. *)
Definition tagged (json_loads : bytes → option jdoc) (line : bytes) : bool :=
  match json_loads line with
  | Some (JDict entry) => bool_decide (entry !! "event" = Some (JString "block_executed"))
  | _ => false
  end.

(** Format A: the data field of a record, parsed as hexadecimal, is [v]. *)
Definition data_parses_to (json_loads : bytes → option jdoc)
    (int_str16 : string → option Z) (line : bytes) (v : Z) : Prop :=
  ∃ entry data,
    json_loads line = Some (JDict entry)
    ∧ entry !! "data" = Some (JString data)
    ∧ int_str16 data = Some v.

(** Format A: a record is an object with a type tag and, when the tag is
    ["block_executed"], a data field that is a hexadecimal string. *)
Definition event_record (json_loads : bytes → option jdoc)
    (int_str16 : string → option Z) (line : bytes) : Prop :=
  ∃ entry,
    json_loads line = Some (JDict entry)
    ∧ is_Some (entry !! "event")
    ∧ (tagged json_loads line = true → ∃ v, data_parses_to json_loads int_str16 line v).

(** A double quote, and a JSON string literal. *)
Definition dquote : string := String (Ascii.ascii_of_nat 34) EmptyString.
Definition quoted (s : string) : string := dquote +:+ s +:+ dquote.

(** The two records of the specification's example, and a loader and a
    parser that know them. *)
Definition example_block : bytes :=
  lit ("{" +:+ quoted "event" +:+ ":" +:+ quoted "block_executed" +:+ ","
       +:+ quoted "data" +:+ ":" +:+ quoted "401000" +:+ "}").

Definition example_other : bytes :=
  lit ("{" +:+ quoted "event" +:+ ":" +:+ quoted "other" +:+ "}").

Definition example_loads (line : bytes) : option jdoc :=
  if bool_decide (line = example_block)
  then Some (JDict {[ "event" := JString "block_executed"; "data" := JString "401000" ]})
  else if bool_decide (line = example_other)
  then Some (JDict {[ "event" := JString "other" ]})
  else None.

Definition example_int (s : string) : option Z := int16 (list_byte_of_string s).

(** The virtual page of a fault. *)
Definition fault_page (fault : Fault) : Z := page_align (get_fault_va fault).

(** An entry of the mapping stands for a fault: it carries the fault's
    virtual page and the dump file of a frame, of either pool, that
    answers the fault. *)
Definition resolves (frames foreign_frames : list Frame) (fault : Fault)
    (entry : Z * string) : Prop :=
  entry.1 = fault_page fault
  ∧ ∃ frame, frame ∈ frames ++ foreign_frames
             ∧ answers fault frame
             ∧ entry.2 = DumpFile frame.


Fixpoint has_slash (s : string) : bool :=
  match s with
  | EmptyString => false
  | String c s' => Ascii.eqb c "/" || has_slash s'
  end.


(** The three collections [get_ptxed_cmdline] takes from the log for a
    process identity. *)
Definition faults_in_process (cr3_value : Z) (codemon_out : list Event) : list Fault :=
  select_cr3 (λ cr3, cr3 =? cr3_value)
    (omap (M:=list) (λ obj, match obj with PageFault f => Some f | _ => None end)
          codemon_out).

Definition frames_in_process (cr3_value : Z) (codemon_out : list Event) : list Frame :=
  select_cr3 (λ cr3, cr3 =? cr3_value)
    (omap (M:=list) (λ obj, match obj with ExecFrame f => Some f | _ => None end)
          codemon_out).

Definition frames_out_process (cr3_value : Z) (codemon_out : list Event) : list Frame :=
  select_cr3 (λ cr3, negb (cr3 =? cr3_value))
    (omap (M:=list) (λ obj, match obj with ExecFrame f => Some f | _ => None end)
          codemon_out).

(** The mapping a run resolves from a log. *)
Definition run_mappings (cr3_value : Z) (codemon_out : list Event) : list (Z * string) :=
  value (match_frames (sort_by_key get_fault_va (faults_in_process cr3_value codemon_out))
                      (frames_in_process cr3_value codemon_out)
                      (frames_out_process cr3_value codemon_out)).

(** The decoder a run selects. *)
Definition decoder (cr3_value : Z) (use_blocks : bool) : list string :=
  if use_blocks then ["drak-ipt-blocks"; "--cr3"; hex cr3_value]
  else ["ptxed"; "--block-decoder"; "--block:show-blocks"].

(** The events a run for a process identity looks at: every frame, and the
    faults of that process. *)
Definition relevant (cr3_value : Z) (obj : Event) : bool :=
  match obj with
  | PageFault f => fault_cr3 f =? cr3_value
  | ExecFrame _ => true
  | OtherEvent _ => false
  end.

(** The pages [debug_faults] walks over, and the ranges it collects. *)
Definition faulted_pages (page_faults : list Fault) : list Z :=
  sort_by_key id (remove_dups (map (λ fault, page_align (get_fault_va fault)) page_faults)).

Definition fault_ranges (page_faults : list Fault) : list (list Z) :=
  debug_ranges [] [] (zip (faulted_pages page_faults) (tail (faulted_pages page_faults))).

(** [n] consecutive pages from [beg] on. *)
Definition run_of (beg : Z) (n : nat) : list Z :=
  map (λ i, beg + 0x1000 * Z.of_nat i) (seq 0 n).

(** Two neighbouring pages between which a range breaks. *)
Definition is_break (pair : Z * Z) : bool := negb (pair.2 - pair.1 =? 0x1000).

(** A chunk of [debug_faults] under construction, once the next page [a]
    is appended: a run of pages taken from [all]. *)
Definition run_up_to (all : list Z) (current : list Z) (a : Z) : Prop :=
  ∃ beg n, current ++ [a] = run_of beg (S n) ∧ Forall (λ x, x ∈ all) (current ++ [a]).

(** A finished chunk: a non-empty run of pages taken from [all]. *)
Definition is_run (all : list Z) (chunk : list Z) : Prop :=
  ∃ beg n, chunk = run_of beg (S n) ∧ Forall (λ x, x ∈ all) chunk.


(** The values one iteration of [generate_ptxed] yields, whether or not
    it goes on to raise. *)
Definition step_yields (r : step_result) : list Z :=
  match r with Next ys _ => ys | Raise ys _ => ys end.

(** * Properties *)

(** ** Page arithmetic *)

Section PageFacts.

Lemma land_low_bits addr : Z.land addr 0xFFF = addr mod PAGE_SIZE.
Proof. change 0xFFF with (Z.ones 12). by rewrite Z.land_ones. Qed.

Lemma page_align_spec addr : page_align addr = PAGE_SIZE * (addr / PAGE_SIZE).
Proof.
  unfold page_align.
  change (Z.lnot 0xFFF) with (Z.lnot (Z.ones 12)).
  rewrite <- Z.ldiff_land, Z.ldiff_ones_r by lia.
  rewrite Z.shiftr_div_pow2, Z.shiftl_mul_pow2 by lia.
  change (2 ^ 12) with PAGE_SIZE. lia.
Qed.

Lemma is_page_aligned_spec addr :
  is_page_aligned addr = true ↔ addr mod PAGE_SIZE = 0.
Proof. unfold is_page_aligned. rewrite land_low_bits. apply Z.eqb_eq. Qed.

Lemma is_page_aligned_false addr :
  addr mod PAGE_SIZE ≠ 0 → is_page_aligned addr = false.
Proof.
  intros H. destruct (is_page_aligned addr) eqn:E; [|done].
  by apply is_page_aligned_spec in E.
Qed.

Lemma page_align_idemp addr : page_align (page_align addr) = page_align addr.
Proof.
  rewrite !page_align_spec.
  rewrite (Z.mul_comm PAGE_SIZE (addr / PAGE_SIZE)), Z.div_mul; [lia|done].
Qed.

End PageFacts.

(** ** FrameIndex *)

Section FrameIndexFacts.

Implicit Types (m : gmap Z (list Frame)) (k : Z) (frames : list Frame).

Lemma dd_getitem_fst m k : (dd_getitem m k).1 = lookup_frames m k.
Proof. unfold dd_getitem, lookup_frames. by destruct (m !! k). Qed.

Lemma dd_getitem_snd m k k' :
  lookup_frames (dd_getitem m k).2 k' = lookup_frames m k'.
Proof.
  unfold dd_getitem, lookup_frames. destruct (m !! k) eqn:E; [done|]. simpl.
  destruct (decide (k = k')) as [->|Hne].
  - by rewrite lookup_insert_eq, E.
  - by rewrite lookup_insert_ne.
Qed.

Lemma dd_append_lookup m k frame k' :
  lookup_frames (dd_append m k frame) k' =
  if decide (k = k') then lookup_frames m k' ++ [frame] else lookup_frames m k'.
Proof.
  unfold dd_append. destruct (dd_getitem m k) as [l m'] eqn:E.
  pose proof (dd_getitem_fst m k) as Hl. pose proof (dd_getitem_snd m k k') as Hm.
  rewrite E in Hl, Hm. simpl in Hl, Hm. subst l.
  unfold lookup_frames at 1. case_decide as Hk.
  - subst k'. by rewrite lookup_insert_eq.
  - rewrite lookup_insert_ne by done. exact Hm.
Qed.

Lemma foldl_dd_append_lookup frames m k :
  lookup_frames
    (foldl (λ frame_map frame,
              dd_append frame_map (page_align (get_frame_va frame)) frame) m frames) k
  = lookup_frames m k ++ candidates frames k.
Proof.
  revert m. induction frames as [|frame frames IH]; intros m; simpl.
  - by rewrite app_nil_r.
  - rewrite IH, dd_append_lookup. unfold on_page.
    case_decide as Hk.
    + rewrite (proj2 (Z.eqb_eq _ _) Hk). by rewrite <- app_assoc.
    + by rewrite (proj2 (Z.eqb_neq _ _) Hk).
Qed.

(** The index groups the frames by virtual page and keeps their order. *)
Lemma build_frame_va_map_lookup frames k :
  lookup_frames (build_frame_va_map frames) k = candidates frames k.
Proof.
  unfold build_frame_va_map. rewrite foldl_dd_append_lookup.
  unfold lookup_frames. by rewrite lookup_empty.
Qed.

(** [select_frame] splits its group at the first frame on the wanted
    physical page. *)
Lemma select_frame_Some frames phys_addr frame :
  select_frame frames phys_addr = Some frame ↔
  ∃ before after,
    frames = before ++ frame :: after
    ∧ phys_addr = page_align (get_trap_pa frame)
    ∧ Forall (λ f, phys_addr ≠ page_align (get_trap_pa f)) before.
Proof.
  induction frames as [|f frames IH]; simpl.
  - split; [done|]. intros (before & after & Heq & _). by destruct before.
  - destruct (Z.eqb_spec phys_addr (page_align (get_trap_pa f))) as [Hpa|Hpa].
    + split.
      * intros [= ->]. by exists [], frames.
      * intros (before & after & Heq & Hf & Hbefore).
        destruct before as [|f' before]; simplify_eq/=; [done|].
        by apply Forall_cons in Hbefore as [? _].
    + rewrite IH. split.
      * intros (before & after & -> & Hf & Hbefore).
        exists (f :: before), after. by repeat constructor.
      * intros (before & after & Heq & Hf & Hbefore).
        destruct before as [|f' before]; simplify_eq/=.
        apply Forall_cons in Hbefore as [_ Hbefore]. by exists before, after.
Qed.

Lemma select_frame_None frames phys_addr :
  select_frame frames phys_addr = None ↔
  Forall (λ f, phys_addr ≠ page_align (get_trap_pa f)) frames.
Proof.
  induction frames as [|f frames IH]; simpl.
  - split; [constructor|done].
  - destruct (Z.eqb_spec phys_addr (page_align (get_trap_pa f))) as [Hpa|Hpa].
    + split; [done|]. intros [? _]%Forall_cons. done.
    + rewrite IH. split; [by constructor|]. by intros [_ ?]%Forall_cons.
Qed.

Lemma elem_of_candidates frames k frame :
  frame ∈ candidates frames k ↔ frame ∈ frames ∧ page_align (get_frame_va frame) = k.
Proof.
  unfold candidates. rewrite !list_elem_of_In, filter_In, <- !list_elem_of_In.
  unfold on_page. by rewrite Z.eqb_eq.
Qed.

(** Selecting in the group of a fault's virtual page finds nothing
    exactly when no frame of the pool answers the fault. *)
Lemma select_candidates_None frames fault :
  select_frame (candidates frames (page_align (get_fault_va fault)))
               (page_align (get_fault_pa fault)) = None
  ↔ Forall (λ frame, ¬ answers fault frame) frames.
Proof.
  rewrite select_frame_None, !Forall_forall. unfold answers. split.
  - intros H frame Hin [Hva Hpa]. apply (H frame); [|done].
    by apply elem_of_candidates.
  - intros H frame [Hin Hva]%elem_of_candidates Hpa. by apply (H frame).
Qed.

Lemma select_candidates_Some frames fault frame :
  select_frame (candidates frames (page_align (get_fault_va fault)))
               (page_align (get_fault_pa fault)) = Some frame
  → frame ∈ frames ∧ answers fault frame.
Proof.
  intros (before & after & Heq & Hpa & _)%select_frame_Some.
  assert (frame ∈ candidates frames (page_align (get_fault_va fault))) as Hin.
  { rewrite Heq. set_solver. }
  apply elem_of_candidates in Hin as [Hin Hva]. by repeat split.
Qed.

(** Selecting in the group of a fault's virtual page returns the first
    frame of the pool, in pool order, that answers the fault. *)
Lemma select_candidates_first frames fault frame :
  select_frame (candidates frames (page_align (get_fault_va fault)))
               (page_align (get_fault_pa fault)) = Some frame
  → ∃ before after,
      frames = before ++ frame :: after
      ∧ answers fault frame
      ∧ Forall (λ f, ¬ answers fault f) before.
Proof.
  induction frames as [|f frames IH]; simpl; [done|].
  unfold on_page at 1. unfold answers in *.
  destruct (Z.eqb_spec (page_align (get_frame_va f)) (page_align (get_fault_va fault)))
    as [Hva|Hva]; simpl.
  - destruct (Z.eqb_spec (page_align (get_fault_pa fault)) (page_align (get_trap_pa f)))
      as [Hpa|Hpa].
    + intros [= ->]. by exists [], frames.
    + intros (before & after & -> & Hf & Hbefore)%IH.
      exists (f :: before), after. repeat split; try apply Hf.
      constructor; [|done]. intros [_ ?]. by apply Hpa.
  - intros (before & after & -> & Hf & Hbefore)%IH.
    exists (f :: before), after. repeat split; try apply Hf.
    constructor; [|done]. by intros [? _].
Qed.

(** C8. [select_frame] scans the group in insertion order: it returns the
    first frame whose page-aligned physical address is the target page,
    so that among several frames on that page the earliest inserted one
    wins, and it returns nothing when no frame of the group is on that
    page.  The groups of the index keep the order in which the frames were
    inserted. *)
Theorem select_frame_first_in_insertion_order (frames : list Frame) (phys_addr : Z) :
  match select_frame frames phys_addr with
  | Some frame =>
      ∃ before after,
        frames = before ++ frame :: after
        ∧ page_align (get_trap_pa frame) = phys_addr
        ∧ Forall (λ f, page_align (get_trap_pa f) ≠ phys_addr) before
  | None => Forall (λ f, page_align (get_trap_pa f) ≠ phys_addr) frames
  end
  ∧ ∀ k, lookup_frames (build_frame_va_map frames) k
         = List.filter (λ f, page_align (get_frame_va f) =? k) frames.
Proof.
  split; [|apply build_frame_va_map_lookup].
  destruct (select_frame frames phys_addr) as [frame|] eqn:E.
  - apply select_frame_Some in E as (before & after & -> & -> & Hbefore).
    exists before, after. repeat split.
    eapply Forall_impl; [exact Hbefore|]. intros f Hf Heq. by apply Hf.
  - apply select_frame_None in E.
    eapply Forall_impl; [exact E|]. intros f Hf Heq. by apply Hf.
Qed.

End FrameIndexFacts.

(** ** FaultResolver *)

Section ResolverFacts.

Implicit Types (st : match_state) (fault : Fault) (frames : list Frame).

(** The three ways an iteration can go, read off the two groups the
    fault's virtual page has in the state. *)
Lemma match_step_cases st fault :
  let va_page := page_align (get_fault_va fault) in
  let pa_page := page_align (get_fault_pa fault) in
  let fm := (dd_getitem (frame_map st) va_page).2 in
  let ffm := (dd_getitem (foreign_frame_map st) va_page).2 in
  match select_frame (lookup_frames (frame_map st) va_page) pa_page with
  | Some frame =>
      match_step st fault =
      mkTraced [fault_line va_page (DumpFile frame)]
        (mkMatch fm (foreign_frame_map st) (unresolved st) (foreign_resolved st)
                 (results st ++ [(va_page, DumpFile frame)]))
  | None =>
      match select_frame (lookup_frames (foreign_frame_map st) va_page) pa_page with
      | Some frame =>
          match_step st fault =
          mkTraced [fault_line va_page (DumpFile frame)]
            (mkMatch fm ffm (unresolved st) (foreign_resolved st + 1)
                     (results st ++ [(va_page, DumpFile frame)]))
      | None =>
          match_step st fault =
          mkTraced [fault_line va_page "?"]
            (mkMatch fm ffm (unresolved st + 1) (foreign_resolved st) (results st))
      end
  end.
Proof.
  intros va_page pa_page fm ffm. subst fm ffm.
  rewrite <- !dd_getitem_fst. unfold match_step. fold va_page pa_page.
  destruct (dd_getitem (frame_map st) va_page) as [own fm]; simpl.
  destruct (select_frame own pa_page) as [frame|]; [done|].
  destruct (dd_getitem (foreign_frame_map st) va_page) as [foreign ffm]; simpl.
  by destruct (select_frame foreign pa_page) as [frame|].
Qed.

Lemma match_init_indexes frames foreign_frames :
  indexes frames foreign_frames (match_init frames foreign_frames).
Proof. split; intros k; apply build_frame_va_map_lookup. Qed.

Lemma match_step_indexes frames foreign_frames st fault :
  indexes frames foreign_frames st →
  indexes frames foreign_frames (value (match_step st fault)).
Proof.
  intros [Hown Hforeign]. pose proof (match_step_cases st fault) as H. simpl in H.
  repeat case_match; rewrite H; split; intros k;
    cbn [value frame_map foreign_frame_map]; rewrite ?dd_getitem_snd; auto.
Qed.

Lemma match_loop_indexes frames foreign_frames page_faults st :
  indexes frames foreign_frames st →
  indexes frames foreign_frames (value (match_loop st page_faults)).
Proof.
  revert st. induction page_faults as [|fault rest IH]; intros st Hst; [done|].
  simpl. apply IH. by apply match_step_indexes.
Qed.

Lemma match_loop_app st l1 l2 :
  value (match_loop st (l1 ++ l2)) = value (match_loop (value (match_loop st l1)) l2).
Proof. revert st. induction l1 as [|fault l1 IH]; intros st; simpl; [done|apply IH]. Qed.

Lemma match_loop_middle st pre fault post :
  value (match_loop st (pre ++ fault :: post))
  = value (match_loop (value (match_step (value (match_loop st pre)) fault)) post).
Proof. by rewrite match_loop_app. Qed.

(** Entries are only ever appended. *)
Lemma match_step_results st fault :
  ∃ new, results (value (match_step st fault)) = results st ++ new.
Proof.
  pose proof (match_step_cases st fault) as H. simpl in H.
  repeat case_match; rewrite H; simpl; eauto. exists []. by rewrite app_nil_r.
Qed.

Lemma match_loop_results st page_faults :
  ∃ new, results (value (match_loop st page_faults)) = results st ++ new.
Proof.
  revert st. induction page_faults as [|fault rest IH]; intros st; simpl.
  - exists []. by rewrite app_nil_r.
  - destruct (IH (value (match_step st fault))) as [new2 ->].
    destruct (match_step_results st fault) as [new1 ->].
    exists (new1 ++ new2). by rewrite app_assoc.
Qed.

(** What [match_frames] returns and logs, in terms of the loop. *)
Lemma match_frames_unfold page_faults frames foreign_frames :
  let run := match_loop (match_init frames foreign_frames) page_faults in
  match_frames page_faults frames foreign_frames =
  mkTraced
    ([Log INFO "Matching frames for each fault" []] ++ trace run ++
     [Log INFO "Failed to resolve %d faults. Let's hope they're not related to code"
          [ArgInt (unresolved (value run))];
      Log INFO "Resolved %d from external CR3" [ArgInt (foreign_resolved (value run))]])
    (results (value run)).
Proof.
  simpl. unfold match_frames. by cbn [mbind mret Traced_bind Traced_ret trace value
    log_info emit app].
Qed.

(** Every iteration classifies its fault in exactly one way. *)
Lemma match_step_counts st fault :
  let st' := value (match_step st fault) in
  Z.of_nat (length (results st')) + unresolved st'
    = Z.of_nat (length (results st)) + unresolved st + 1
  ∧ 0 ≤ foreign_resolved st' - foreign_resolved st
      ≤ Z.of_nat (length (results st')) - Z.of_nat (length (results st))
  ∧ unresolved st ≤ unresolved st'.
Proof.
  pose proof (match_step_cases st fault) as H. simpl in H. simpl.
  repeat case_match; rewrite H; simpl; rewrite ?length_app; simpl; lia.
Qed.

Lemma match_loop_counts st page_faults :
  let st' := value (match_loop st page_faults) in
  Z.of_nat (length (results st')) + unresolved st'
    = Z.of_nat (length (results st)) + unresolved st + Z.of_nat (length page_faults)
  ∧ 0 ≤ foreign_resolved st' - foreign_resolved st
      ≤ Z.of_nat (length (results st')) - Z.of_nat (length (results st))
  ∧ unresolved st ≤ unresolved st'.
Proof.
  revert st. induction page_faults as [|fault rest IH]; intros st; simpl.
  - lia.
  - specialize (IH (value (match_step st fault))).
    pose proof (match_step_counts st fault) as Hs. simpl in IH, Hs. lia.
Qed.

Lemma match_loop_unanswered frames foreign_frames page_faults st :
  indexes frames foreign_frames st →
  Forall (unanswered frames foreign_frames) page_faults →
  let st' := value (match_loop st page_faults) in
  results st' = results st
  ∧ unresolved st' = unresolved st + Z.of_nat (length page_faults)
  ∧ foreign_resolved st' = foreign_resolved st.
Proof.
  revert st. induction page_faults as [|fault rest IH]; intros st Hst Hall; simpl.
  - repeat split; lia.
  - apply Forall_cons in Hall as [[Hown Hforeign] Hall].
    specialize (IH (value (match_step st fault)) (match_step_indexes _ _ _ _ Hst) Hall).
    simpl in IH. destruct IH as (-> & -> & ->).
    pose proof (match_step_cases st fault) as H. simpl in H.
    destruct Hst as [Hst1 Hst2]. rewrite Hst1, Hst2 in H.
    apply select_candidates_None in Hown, Hforeign. rewrite Hown, Hforeign in H.
    rewrite H. simpl. repeat split; lia.
Qed.

(** C1. A fault that some frame of the own-process pool answers (same
    virtual page, same physical page) is mapped to the dump of an
    own-process frame, the first one in pool order that answers it,
    whatever the foreign pool holds on that virtual page; the iteration
    leaves the foreign index and both counters as they were, and the entry
    is part of what [match_frames] returns. *)
Theorem own_pool_match_preferred
    (frames foreign_frames : list Frame) (pre post : list Fault) (fault : Fault)
    (own : Frame) :
  own ∈ frames →
  answers fault own →
  let st := value (match_loop (match_init frames foreign_frames) pre) in
  let st' := value (match_step st fault) in
  let va_page := page_align (get_fault_va fault) in
  ∃ frame before after tail,
    frames = before ++ frame :: after
    ∧ answers fault frame
    ∧ Forall (λ f, ¬ answers fault f) before
    ∧ results st' = results st ++ [(va_page, DumpFile frame)]
    ∧ unresolved st' = unresolved st
    ∧ foreign_resolved st' = foreign_resolved st
    ∧ foreign_frame_map st' = foreign_frame_map st
    ∧ value (match_frames (pre ++ fault :: post) frames foreign_frames)
      = results st ++ (va_page, DumpFile frame) :: tail.
Proof.
  intros Hin Hown st st' va_page.
  assert (indexes frames foreign_frames st) as [Hst _].
  { apply match_loop_indexes, match_init_indexes. }
  pose proof (match_step_cases st fault) as H. simpl in H. rewrite Hst in H.
  destruct (select_frame _ _) as [frame|] eqn:E.
  - destruct (select_candidates_first _ _ _ E) as (before & after & Heq & Hf & Hbefore).
    assert (results st' = results st ++ [(va_page, DumpFile frame)]) as Hres.
    { subst st'. by rewrite H. }
    destruct (match_loop_results st' post) as [tail Htail].
    exists frame, before, after, tail. subst st'. rewrite H in *. simpl in *.
    repeat split; try done; try apply Hf.
    rewrite match_loop_middle. fold st. rewrite H. simpl. rewrite Htail.
    by rewrite <- app_assoc.
  - apply select_candidates_None in E. rewrite Forall_forall in E.
    by destruct (E own Hin).
Qed.

Lemma own_pool_match_preferred_witness :
  let own := mkFrame 5 0x7000 0x9000 "own.bin" in
  let foreign := mkFrame 6 0x7000 0x9000 "foreign.bin" in
  let fault := mkFault 5 0x7010 0x9abc in
  ∃ frame before after tail,
    [own] = before ++ frame :: after
    ∧ answers fault frame
    ∧ Forall (λ f, ¬ answers fault f) before
    ∧ results (value (match_step (match_init [own] [foreign]) fault))
      = [(0x7000, DumpFile frame)]
    ∧ unresolved (value (match_step (match_init [own] [foreign]) fault)) = 0
    ∧ foreign_resolved (value (match_step (match_init [own] [foreign]) fault)) = 0
    ∧ foreign_frame_map (value (match_step (match_init [own] [foreign]) fault))
      = build_frame_va_map [foreign]
    ∧ value (match_frames [fault] [own] [foreign]) = (0x7000, DumpFile frame) :: tail.
Proof.
  intros own foreign fault.
  apply (own_pool_match_preferred [own] [foreign] [] [] fault own).
  - apply list_elem_of_here.
  - split; reflexivity.
Defined.

(** C4. A fault that no frame of either pool answers makes its iteration
    add exactly one to the unresolved counter and nothing to the mapping
    or to the foreign-resolved counter; the iteration completes and logs
    the fault with a question mark.  A run in which every fault is
    unanswered returns the empty mapping and reports as many unresolved
    faults as it was given. *)
Theorem unanswered_fault_counted_unresolved (frames foreign_frames : list Frame) :
  (∀ pre fault,
     unanswered frames foreign_frames fault →
     let st := value (match_loop (match_init frames foreign_frames) pre) in
     let step := match_step st fault in
     unresolved (value step) = unresolved st + 1
     ∧ results (value step) = results st
     ∧ foreign_resolved (value step) = foreign_resolved st
     ∧ trace step = [fault_line (page_align (get_fault_va fault)) "?"])
  ∧ (∀ page_faults,
       Forall (unanswered frames foreign_frames) page_faults →
       ∃ lines,
         match_frames page_faults frames foreign_frames =
         mkTraced
           ([Log INFO "Matching frames for each fault" []] ++ lines ++
            [Log INFO "Failed to resolve %d faults. Let's hope they're not related to code"
                 [ArgInt (Z.of_nat (length page_faults))];
             Log INFO "Resolved %d from external CR3" [ArgInt 0]])
           []).
Proof.
  split.
  - intros pre fault [Hown Hforeign] st step.
    assert (indexes frames foreign_frames st) as [Hst1 Hst2].
    { apply match_loop_indexes, match_init_indexes. }
    pose proof (match_step_cases st fault) as H. simpl in H.
    rewrite Hst1, Hst2 in H.
    apply select_candidates_None in Hown, Hforeign. rewrite Hown, Hforeign in H.
    subst step. by rewrite H.
  - intros page_faults Hall.
    destruct (match_loop_unanswered frames foreign_frames page_faults
                (match_init frames foreign_frames) (match_init_indexes _ _) Hall)
      as (Hres & Hun & Hfor).
    rewrite match_frames_unfold. simpl in *. rewrite Hres, Hun, Hfor. simpl. eauto.
Qed.

Lemma unanswered_fault_counted_unresolved_witness :
  let frames := [mkFrame 5 0x7000 0x9000 "own.bin"] in
  let foreign_frames := [mkFrame 6 0x8000 0xa000 "foreign.bin"] in
  let fault := mkFault 5 0x7010 0xb000 in
  unanswered frames foreign_frames fault
  ∧ unresolved (value (match_step (match_init frames foreign_frames) fault)) = 1
  ∧ results (value (match_step (match_init frames foreign_frames) fault)) = []
  ∧ value (match_frames [fault] frames foreign_frames) = [].
Proof.
  intros frames foreign_frames fault.
  assert (unanswered frames foreign_frames fault) as Hun.
  { split; (constructor; [|constructor]); intros [Hva Hpa]; vm_compute in Hva, Hpa;
      discriminate. }
  split; [exact Hun|].
  destruct (unanswered_fault_counted_unresolved frames foreign_frames) as [Hstep Hrun].
  destruct (Hstep [] fault Hun) as (H1 & H2 & _).
  destruct (Hrun [fault] (Forall_cons_2 _ _ _ Hun (Forall_nil_2 _))) as [lines Hlines].
  split; [exact H1|]. split; [exact H2|]. by rewrite Hlines.
Defined.

(** C9. The resolver classifies every fault exactly once: the number of
    entries it returns plus the unresolved count it reports is the number
    of faults it was given, and the foreign-resolved count it reports is
    at most the number of entries. *)
Theorem every_fault_classified_once
    (page_faults : list Fault) (frames foreign_frames : list Frame) :
  ∃ lines unresolved foreign_resolved,
    trace (match_frames page_faults frames foreign_frames) =
      lines ++
      [Log INFO "Failed to resolve %d faults. Let's hope they're not related to code"
           [ArgInt unresolved];
       Log INFO "Resolved %d from external CR3" [ArgInt foreign_resolved]]
    ∧ Z.of_nat (length (value (match_frames page_faults frames foreign_frames)))
      + unresolved = Z.of_nat (length page_faults)
    ∧ 0 ≤ unresolved
    ∧ 0 ≤ foreign_resolved
        ≤ Z.of_nat (length (value (match_frames page_faults frames foreign_frames))).
Proof.
  rewrite match_frames_unfold. simpl.
  set (run := match_loop (match_init frames foreign_frames) page_faults).
  pose proof (match_loop_counts (match_init frames foreign_frames) page_faults) as H.
  simpl in H. fold run in H.
  exists (Log INFO "Matching frames for each fault" [] :: trace run),
    (unresolved (value run)), (foreign_resolved (value run)).
  split; [done|]. lia.
Qed.

End ResolverFacts.

(** ** ManifestBuilder *)

Section ManifestFacts.

Implicit Types (analysis_dir : Path) (fs : FileSystem) (pages : list string).

(** The outcome of one iteration, by what the file system says about the
    dump. *)
Lemma manifest_step_cases analysis_dir fs pages addr fname :
  let fpath := dump_path analysis_dir fname in
  manifest_step analysis_dir fs pages (addr, fname) =
  match fs !! path_str fpath with
  | None => mkTraced [Log WARNING ("Missing " +:+ path_str fpath) []] pages
  | Some st_size =>
      mkTraced []
        (if negb (String.eqb (path_name fpath) "(null)") && (st_size =? 0x1000)
         then pages ++ raw_page_arg analysis_dir (addr, fname) else pages)
  end.
Proof.
  simpl. unfold manifest_step. fold (dump_path analysis_dir fname).
  destruct (fs !! _) as [st_size|]; [|done].
  by destruct (negb _ && _).
Qed.

Lemma manifest_step_value analysis_dir fs pages mapping :
  value (manifest_step analysis_dir fs pages mapping)
  = pages ++ contribution analysis_dir fs mapping.
Proof.
  destruct mapping as [addr fname]. unfold contribution.
  rewrite !manifest_step_cases. simpl.
  destruct (fs !! _) as [st_size|]; simpl; [|by rewrite app_nil_r].
  destruct (negb _ && _); simpl; [done|by rewrite app_nil_r].
Qed.

Lemma manifest_loop_value analysis_dir fs pages mappings :
  value (manifest_loop analysis_dir fs pages mappings)
  = pages ++ flat_map (contribution analysis_dir fs) mappings.
Proof.
  revert pages. induction mappings as [|mapping rest IH]; intros pages; simpl.
  - by rewrite app_nil_r.
  - by rewrite IH, manifest_step_value, <- app_assoc.
Qed.

(** The name of the dump path is the base name of the entry, unless that
    is empty. *)
Lemma dump_path_null analysis_dir fname :
  path_name (parse_path fname) = "(null)" →
  path_name (dump_path analysis_dir fname) = "(null)".
Proof.
  intros Hname. unfold dump_path. rewrite Hname.
  unfold path_div at 1, path_name. simpl. by rewrite last_last.
Qed.

(** C3. The manifest builder emits a raw-page argument for an entry only
    if the dump file it refers to exists and its size is exactly 4096
    bytes.  An entry adds either nothing or the complete argument (the
    flag and the file with its load address), and adds nothing when the
    file is missing or has another size; the arguments of a mapping are
    the contributions of its entries, in order. *)
Theorem raw_page_only_for_existing_full_page
    (analysis_dir : Path) (fs : FileSystem) (mappings : list (Z * string)) :
  value (manifest_loop analysis_dir fs [] mappings)
  = flat_map (contribution analysis_dir fs) mappings
  ∧ ∀ mapping,
      let fpath := dump_path analysis_dir mapping.2 in
      (contribution analysis_dir fs mapping = []
       ∨ contribution analysis_dir fs mapping = raw_page_arg analysis_dir mapping
         ∧ fs !! path_str fpath = Some 0x1000)
      ∧ (fs !! path_str fpath ≠ Some 0x1000 → contribution analysis_dir fs mapping = []).
Proof.
  split; [apply manifest_loop_value|].
  intros [addr fname]. unfold contribution. rewrite manifest_step_cases. simpl.
  destruct (fs !! _) as [st_size|] eqn:E; simpl; [|by split; [left|]].
  destruct (Z.eqb_spec st_size 0x1000) as [->|Hsize].
  - rewrite andb_true_r. destruct (negb _); simpl; split; auto. done.
  - rewrite andb_false_r. split; [by left|done].
Qed.

(** C10, as stated, fails: an entry named ["(null)"] whose file is not in
    the dump directory is dropped, but with the warning every missing file
    gets. *)
Lemma null_entry_missing_file_warns :
  let step := manifest_step (parse_path "/analysis") ∅ [] (0x7000, "(null)") in
  path_name (parse_path "(null)") = "(null)"
  ∧ value step = []
  ∧ trace step = [Log WARNING "Missing /analysis/ipt/dumps/(null)" []]
  ∧ ¬ Forall (λ e, is_warning e = false) (trace step).
Proof.
  repeat split. intros H. by apply Forall_cons in H as [? _].
Qed.

(** C10, amended. An entry whose base name is ["(null)"] never adds a
    raw-page argument, not even when a file of that name exists in the
    dump directory and has exactly 4096 bytes; when such a file exists the
    entry is dropped without any warning, and when it does not the entry
    gets the warning of a missing file. *)
Theorem null_entry_never_emitted
    (analysis_dir : Path) (fs : FileSystem) (pages : list string)
    (addr : Z) (fname : string) :
  path_name (parse_path fname) = "(null)" →
  let fpath := dump_path analysis_dir fname in
  let step := manifest_step analysis_dir fs pages (addr, fname) in
  value step = pages
  ∧ (is_Some (fs !! path_str fpath) → trace step = [])
  ∧ (fs !! path_str fpath = None
     → trace step = [Log WARNING ("Missing " +:+ path_str fpath) []]).
Proof.
  intros Hname fpath step. subst step. rewrite manifest_step_cases. simpl.
  fold fpath. rewrite (dump_path_null analysis_dir fname Hname : path_name fpath = _).
  destruct (fs !! path_str fpath) as [st_size|]; simpl.
  - split; [done|]. split; [done|]. intros [=].
  - split; [done|]. split; [|done]. by intros [? [=]].
Qed.

Lemma null_entry_never_emitted_witness :
  let fs : FileSystem := {[ "/analysis/ipt/dumps/(null)" := 0x1000 ]} in
  let step := manifest_step (parse_path "/analysis") fs [] (0x7000, "dumps/(null)") in
  path_name (parse_path "dumps/(null)") = "(null)"
  ∧ value step = []
  ∧ (is_Some (fs !! "/analysis/ipt/dumps/(null)") → trace step = []).
Proof.
  intros fs step. split; [reflexivity|].
  destruct (null_entry_never_emitted (parse_path "/analysis") fs [] 0x7000
              "dumps/(null)" eq_refl) as (Hvalue & Hquiet & _).
  split; [exact Hvalue|exact Hquiet].
Defined.

End ManifestFacts.

(** ** The pipeline *)

Section PipelineFacts.

Variable load_drakvuf_output : string → list Event.

(** C2. A process identity that is not a multiple of 4096 stops
    [get_ptxed_cmdline] at its alignment check: the call logs the critical
    message and returns no command line, and its trace holds nothing but
    the two debug lines and that message, so the log is not loaded, no
    event is classified and the resolver is not entered. *)
Theorem unaligned_cr3_stops_before_resolution
    (fs : FileSystem) (analysis_dir : Path) (cr3_value : Z)
    (pt_stream : string) (use_blocks : bool) :
  cr3_value mod 4096 ≠ 0 →
  let run := get_ptxed_cmdline load_drakvuf_output fs analysis_dir cr3_value
               pt_stream use_blocks in
  run = mkTraced
          [Log DEBUG "Analysis directory: %s" [ArgStr (path_str analysis_dir)];
           Log DEBUG "CR3: %#x" [ArgInt cr3_value];
           Log CRITICAL "CR3 must be aligned to page! Got %#x" [ArgInt cr3_value]]
          None
  ∧ (∀ path, LoadLog path ∉ trace run)
  ∧ Log INFO "Matching frames for each fault" [] ∉ trace run.
Proof.
  intros Hcr3 run.
  assert (run = mkTraced
          [Log DEBUG "Analysis directory: %s" [ArgStr (path_str analysis_dir)];
           Log DEBUG "CR3: %#x" [ArgInt cr3_value];
           Log CRITICAL "CR3 must be aligned to page! Got %#x" [ArgInt cr3_value]]
          None) as ->.
  { subst run. unfold get_ptxed_cmdline.
    by rewrite (is_page_aligned_false cr3_value Hcr3). }
  split; [done|]. simpl. split; [intros path|];
    rewrite !elem_of_cons, elem_of_nil; by intros [?|[?|[?|?]]].
Qed.

End PipelineFacts.

(** A complete run: one fault and one frame of the target process, whose
    dump is in place and one page long. *)
Example pipeline_example :
  value (get_ptxed_cmdline
           (λ _, [PageFault (mkFault 0x5000 0x7000 0x9000);
                  ExecFrame (mkFrame 0x5000 0x7000 0x9000 "f1")])
           {[ "/analysis/ipt/dumps/f1" := 0x1000 ]}
           (parse_path "/analysis") 0x5000 "stream" false)
  = Some ["ptxed"; "--block-decoder"; "--block:show-blocks";
          "--raw"; "/analysis/ipt/dumps/f1:0x7000"; "--pt"; "stream"].
Proof. by vm_compute. Qed.

Lemma unaligned_cr3_stops_before_resolution_witness :
  0x5001 mod 4096 ≠ 0
  ∧ value (get_ptxed_cmdline (λ _, [PageFault (mkFault 0x5001 0x7000 0x9000)])
             ∅ (parse_path "/analysis") 0x5001 "stream" false) = None.
Proof.
  assert (0x5001 mod 4096 ≠ 0) as H by (by vm_compute).
  split; [exact H|].
  destruct (unaligned_cr3_stops_before_resolution
              (λ _, [PageFault (mkFault 0x5001 0x7000 0x9000)])
              ∅ (parse_path "/analysis") 0x5001 "stream" false H) as [Hrun _].
  by rewrite Hrun.
Defined.

(** ** TraceNormalizer, Format B *)

Section FormatBFacts.

Implicit Types (line : bytes) (c : byte).

Lemma to_N_inj c1 c2 : Byte.to_N c1 = Byte.to_N c2 → c1 = c2.
Proof.
  intros H. pose proof (Byte.of_to_N c1) as H1. rewrite H, Byte.of_to_N in H1.
  by injection H1.
Qed.

Lemma map_to_N_inj (l1 l2 : bytes) : map Byte.to_N l1 = map Byte.to_N l2 → l1 = l2.
Proof.
  revert l2. induction l1 as [|c1 l1 IH]; intros [|c2 l2]; simpl; try done.
  intros [= Hc Hl]. f_equal; [by apply to_N_inj|by apply IH].
Qed.

Lemma forallb_to_N (P : N → bool) (l : bytes) :
  forallb P (map Byte.to_N l) = forallb (λ c, P (Byte.to_N c)) l.
Proof. induction l as [|c l IH]; simpl; [done|by rewrite IH]. Qed.

(** ASCII text always decodes, byte for character. *)
Lemma decode_ascii line : is_ascii line → decode line = Some (map Byte.to_N line).
Proof.
  induction 1 as [|c line Hc _ IH]; [done|]. simpl.
  rewrite (proj2 (N.ltb_lt _ _) Hc), IH. done.
Qed.

Lemma lstrip_spec line :
  ∃ ws, line = ws ++ lstrip line ∧ Forall (λ c, is_space c = true) ws.
Proof.
  induction line as [|c line (ws & Heq & Hws)]; simpl.
  - by exists [].
  - destruct (is_space c) eqn:E.
    + exists (c :: ws). split; [simpl; by f_equal|by constructor].
    + by exists [].
Qed.

Lemma rstrip_spec line :
  ∃ ws, line = rstrip line ++ ws ∧ Forall (λ c, is_space c = true) ws.
Proof.
  unfold rstrip. destruct (lstrip_spec (rev line)) as (ws & Heq & Hws).
  exists (rev ws). split.
  - by rewrite <- rev_app_distr, <- Heq, rev_involutive.
  - rewrite Forall_forall in *. intros c Hc. apply Hws.
    by rewrite list_elem_of_In, in_rev, <- list_elem_of_In.
Qed.

Lemma is_ascii_strip line : is_ascii line → is_ascii (strip line).
Proof.
  unfold is_ascii, strip. intros H.
  destruct (lstrip_spec line) as (ws1 & Heq1 & _).
  destruct (rstrip_spec (lstrip line)) as (ws2 & Heq2 & _).
  rewrite Heq1, Heq2 in H. by apply Forall_app in H as [_ [? _]%Forall_app].
Qed.

(** A line that starts with a byte [strip] keeps is only shortened at its
    end. *)
Lemma strip_cons c line :
  is_space c = false →
  ∃ kept ws, strip (c :: line) = c :: kept ∧ c :: line = c :: kept ++ ws.
Proof.
  intros Hc. unfold strip. simpl. rewrite Hc.
  destruct (rstrip_spec (c :: line)) as (ws & Heq & Hws).
  destruct (rstrip (c :: line)) as [|c' kept]; simpl in Heq.
  - subst ws. apply Forall_cons in Hws as [Hsp _]. congruence.
  - injection Heq as <- Hline. exists kept, ws. by rewrite Hline.
Qed.

(** The marker line is none of the annotation lines. *)
Lemma marker_not_annotation line : is_marker line = true → is_annotation line = false.
Proof.
  unfold is_marker. intros Hm%bool_decide_eq_true.
  destruct line as [|c line]; [done|].
  destruct c; try reflexivity.
  destruct (strip_cons "[" line eq_refl) as (kept & ws & Hstrip & Hline).
  rewrite Hline. rewrite Hstrip in Hm. injection Hm as ->. reflexivity.
Qed.

Lemma hexdigit_not_space c : in_hexdigits (Byte.to_N c) = true → is_space c = false.
Proof. destruct c; (discriminate || reflexivity). Qed.

(** A line that starts with a hexadecimal digit is neither an annotation
    nor the marker. *)
Lemma hexdigit_line_plain c line :
  in_hexdigits (Byte.to_N c) = true →
  is_annotation (c :: line) = false ∧ is_marker (c :: line) = false.
Proof.
  intros Hc. split.
  - destruct c; (discriminate || reflexivity).
  - destruct (strip_cons c line (hexdigit_not_space c Hc)) as (kept & ws & Hstrip & _).
    unfold is_marker. rewrite Hstrip. apply bool_decide_eq_false.
    intros [= -> _]. discriminate.
Qed.

Lemma hexdigit_value_digit c :
  in_hexdigits (Byte.to_N c) = true → hexdigit_value c = Some (digit c).
Proof. destruct c; (discriminate || reflexivity). Qed.

Lemma hex_digits_value_spec (bs : bytes) acc :
  forallb (λ c, in_hexdigits (Byte.to_N c)) bs = true →
  hex_digits_value acc bs = Some (foldl (λ acc c, acc * 16 + digit c) acc bs).
Proof.
  revert acc. induction bs as [|c bs IH]; intros acc; simpl; [done|].
  intros [Hc Hbs]%andb_true_iff. rewrite (hexdigit_value_digit c Hc). by apply IH.
Qed.

(** On a non-empty run of lower-case hexadecimal digits [int] returns the
    positional value. *)
Lemma int16_hex_value (bs : bytes) :
  bs ≠ [] →
  forallb (λ c, in_hexdigits (Byte.to_N c)) bs = true →
  int16 bs = Some (hex_value bs).
Proof.
  intros Hne Hbs. destruct bs as [|c bs]; [done|].
  unfold int16, hex_value. by apply hex_digits_value_spec.
Qed.

(** The second half of the loop body on a line of text. *)
Lemma ptxed_classify_text ys prev_block line :
  is_ascii line →
  ptxed_classify ys prev_block line = Next ys (prev_block || is_marker line).
Proof.
  intros Hascii. unfold ptxed_classify. fold (is_annotation line).
  destruct (is_annotation line) eqn:Hann.
  - destruct (is_marker line) eqn:Hm.
    + apply marker_not_annotation in Hm. congruence.
    + by rewrite orb_false_r.
  - rewrite (decode_ascii _ (is_ascii_strip _ Hascii)).
    unfold is_marker, str.
    rewrite (bool_decide_ext (map Byte.to_N (strip line) = map Byte.to_N (lit "[block]"))
                             (strip line = lit "[block]")).
    + destruct (bool_decide _); [by rewrite orb_true_r|by rewrite orb_false_r].
    + split; [apply map_to_N_inj|by intros ->].
Qed.

(** One iteration on a non-empty line of text: the machine step. *)
Lemma ptxed_step_text prev_block line :
  line ≠ [] → is_ascii line →
  ptxed_step prev_block line =
  if prev_block && hex_prefix line
  then Next [hex_value (take 16 line)] false
  else Next [] (prev_block || is_marker line).
Proof.
  intros Hne Hascii. unfold ptxed_step.
  destruct prev_block; simpl; [|by apply ptxed_classify_text].
  rewrite (decode_ascii (take 16 line)) by (by apply Forall_take).
  rewrite forallb_to_N. fold (hex_prefix line).
  destruct (hex_prefix line) eqn:Hhex; [|by apply ptxed_classify_text].
  rewrite int16_hex_value; [|by destruct line|done].
  rewrite ptxed_classify_text by done.
  destruct line as [|c line]; [done|].
  unfold hex_prefix in Hhex. simpl in Hhex. apply andb_true_iff in Hhex as [Hc _].
  by rewrite (proj2 (hexdigit_line_plain c line Hc)).
Qed.

(** On text the generator is the two-state machine, and it does not
    raise. *)
Lemma ptxed_loop_text prev_block stdout :
  Forall (λ line, line ≠ [] ∧ is_ascii line) stdout →
  ptxed_loop prev_block stdout = mkGen (expected_ptxed prev_block stdout) None.
Proof.
  intros H. revert prev_block.
  induction H as [|line rest [Hne Hascii] _ IH]; intros prev_block; [done|].
  simpl. rewrite ptxed_step_text by done.
  destruct (prev_block && hex_prefix line); by rewrite IH.
Qed.

Lemma expected_ptxed_skip skipped stdout :
  Forall (λ line, hex_prefix line = false) skipped →
  expected_ptxed true (skipped ++ stdout) = expected_ptxed true stdout.
Proof.
  induction 1 as [|line skipped Hline _ IH]; simpl; [done|]. by rewrite Hline.
Qed.

Lemma expected_ptxed_idle stdout :
  Forall (λ line, is_marker line = false) stdout → expected_ptxed false stdout = [].
Proof.
  induction 1 as [|line stdout Hline _ IH]; simpl; [done|]. by rewrite Hline.
Qed.

(** C5, as stated, fails: the line after the marker does not match, and
    yet the hexadecimal line that follows it, with no fresh marker in
    between, yields its address. *)
Lemma flag_survives_failed_match :
  let other := lit "[cbr 3]" ++ LF in
  hex_prefix other = false
  ∧ is_marker other = false
  ∧ generate_ptxed [lit "[block]" ++ LF; other; lit "0000000000401000 instr" ++ LF]
    = mkGen [0x401000] None.
Proof. by vm_compute. Qed.

(** C5, amended. The flag is cleared by a successful parse and by nothing
    else; a failed match leaves it set.  After a marker line, lines of
    text that do not match yield nothing and raise nothing, and the first
    matching line after them, however many they are, yields its address;
    once an address has been yielded, a later hexadecimal line yields
    nothing until a fresh marker line comes. *)
Theorem marker_flag_reset_only_by_parse
    (marker : bytes) (skipped : list bytes) (addr : bytes) (rest : list bytes) :
  Forall text_line (marker :: skipped ++ addr :: rest) →
  is_marker marker = true →
  Forall (λ line, hex_prefix line = false) skipped →
  hex_prefix addr = true →
  generate_ptxed (marker :: skipped) = mkGen [] None
  ∧ generate_ptxed (marker :: skipped ++ addr :: rest)
    = mkGen (hex_value (take 16 addr) :: expected_ptxed false rest) None
  ∧ (Forall (λ line, is_marker line = false) rest →
     generate_ptxed (marker :: skipped ++ addr :: rest)
     = mkGen [hex_value (take 16 addr)] None).
Proof.
  intros Htext Hmarker Hskipped Haddr.
  assert (generate_ptxed (marker :: skipped ++ addr :: rest)
          = mkGen (hex_value (take 16 addr) :: expected_ptxed false rest) None) as Hrun.
  { unfold generate_ptxed. rewrite ptxed_loop_text by done. simpl.
    by rewrite Hmarker, expected_ptxed_skip; simpl; rewrite ?Haddr. }
  split; [|split; [done|]].
  - unfold generate_ptxed. rewrite ptxed_loop_text.
    + simpl. rewrite Hmarker. rewrite <- (app_nil_r skipped).
      by rewrite expected_ptxed_skip.
    + apply Forall_cons in Htext as [? [? _]%Forall_app]. by constructor.
  - intros Hrest. by rewrite Hrun, expected_ptxed_idle.
Qed.

Lemma marker_flag_reset_only_by_parse_witness :
  let marker := lit "[block]" ++ LF in
  let skipped := [lit "[cbr 3]" ++ LF; lit "[ptwrite 1]" ++ LF] in
  let addr := lit "0000000000401000 instr" ++ LF in
  let rest := [lit "0000000000401005 instr" ++ LF] in
  generate_ptxed (marker :: skipped) = mkGen [] None
  ∧ generate_ptxed (marker :: skipped ++ addr :: rest) = mkGen [0x401000] None.
Proof.
  intros marker skipped addr rest.
  assert (Forall text_line (marker :: skipped ++ addr :: rest)) as Htext.
  { apply (bool_decide_unpack _). by vm_compute. }
  assert (Forall (λ line, hex_prefix line = false) skipped) as Hskipped.
  { by repeat constructor. }
  assert (Forall (λ line, is_marker line = false) rest) as Hrest.
  { by repeat constructor. }
  destruct (marker_flag_reset_only_by_parse marker skipped addr rest
              Htext eq_refl Hskipped eq_refl) as (H1 & _ & H3).
  split; [exact H1|exact (H3 Hrest)].
Defined.

(** C6, as stated, fails: a last line that the stream ends without a line
    feed can be shorter than sixteen characters, and it yields a value when
    all of its characters are hexadecimal digits. *)
Lemma short_hex_line_yields :
  (length (lit "abc") < 16)%nat
  ∧ generate_ptxed [lit "[block]" ++ LF; lit "abc"] = mkGen [0xabc] None.
Proof. split; [simpl; lia|by vm_compute]. Qed.

(** C6, amended. A line of text that follows the marker yields an address
    exactly when each of its first sixteen bytes, or each of its bytes when
    it has fewer, is one of [0123456789abcdef]; the value is that prefix
    read as a hexadecimal number, and a line with any other byte in the
    prefix yields nothing and leaves the flag set.  A line that does not
    follow a marker yields nothing. *)
Theorem address_line_iff_lowercase_hex_prefix (line : bytes) :
  line ≠ [] →
  is_ascii line →
  ((∃ v prev_block, ptxed_step true line = Next [v] prev_block) ↔ hex_prefix line = true)
  ∧ (hex_prefix line = true → ptxed_step true line = Next [hex_value (take 16 line)] false)
  ∧ (hex_prefix line = false → ptxed_step true line = Next [] true)
  ∧ ptxed_step false line = Next [] (is_marker line).
Proof.
  intros Hne Hascii. rewrite !ptxed_step_text by done. simpl.
  destruct (hex_prefix line); repeat split; try done; eauto.
  - by intros (v & prev_block & [=]).
Qed.

Lemma address_line_iff_lowercase_hex_prefix_witness :
  let line := lit "0000000000401000 instr" ++ LF in
  line ≠ [] ∧ is_ascii line ∧ ptxed_step true line = Next [0x401000] false.
Proof.
  intros line.
  assert (line ≠ []) as Hne by discriminate.
  assert (is_ascii line) as Hascii.
  { apply (bool_decide_unpack _). by vm_compute. }
  split; [exact Hne|]. split; [exact Hascii|].
  destruct (address_line_iff_lowercase_hex_prefix line Hne Hascii) as (_ & Hyield & _).
  exact (Hyield eq_refl).
Defined.

(** The example of the specification. *)
Example format_b_example :
  generate_ptxed [lit "[block]" ++ LF; lit "0000000000401000 instr" ++ LF;
                  lit "[cbr 3]" ++ LF]
  = mkGen [0x401000] None.
Proof. by vm_compute. Qed.

(** Bytes that are not UTF-8 end the generator with an exception. *)
Example undecodable_line_raises :
  generate_ptxed [lit "[block]" ++ LF; [Byte.xff; Byte.x0a]]
  = mkGen [] (Some UnicodeDecodeError).
Proof. by vm_compute. Qed.

End FormatBFacts.

(** ** TraceNormalizer, Format A *)

Section FormatAFacts.

Variable json_loads : bytes → option jdoc.
Variable int_str16 : string → option Z.

(** One iteration on a record: a value exactly for a tagged record. *)
Lemma ipt_blocks_step_record line :
  event_record json_loads int_str16 line →
  if tagged json_loads line
  then ∃ v, data_parses_to json_loads int_str16 line v
            ∧ ipt_blocks_step json_loads int_str16 line = inr (Some v)
  else ipt_blocks_step json_loads int_str16 line = inr None.
Proof.
  intros (entry & Hload & [event Hevent] & Hdata).
  unfold ipt_blocks_step. unfold tagged in *. rewrite Hload in *. rewrite Hevent in *.
  rewrite (bool_decide_ext (Some event = Some (JString "block_executed"))
                           (event = JString "block_executed")) in * by naive_solver.
  destruct (bool_decide _); [|done].
  destruct (Hdata eq_refl) as (v & entry' & data & Hload' & Hd & Hv).
  assert (entry' = entry) as -> by congruence.
  exists v. split; [by exists entry, data|]. by rewrite Hd, Hv.
Qed.

(** C7. On a stream of records the generator yields one value for each
    record tagged ["block_executed"], namely its data field parsed as
    hexadecimal, in the order of the stream, and nothing for a record with
    any other tag; it ends without an exception. *)
Theorem block_executed_records_yield_their_data (stdout : list bytes) :
  Forall (event_record json_loads int_str16) stdout →
  ∃ values,
    generate_ipt_blocks json_loads int_str16 stdout = mkGen values None
    ∧ Forall2 (data_parses_to json_loads int_str16)
              (List.filter (tagged json_loads) stdout) values.
Proof.
  induction 1 as [|line rest Hline _ (values & Hgen & Hvalues)]; simpl.
  - exists []. split; [done|constructor].
  - pose proof (ipt_blocks_step_record line Hline) as Hstep.
    destruct (tagged json_loads line).
    + destruct Hstep as (v & Hv & ->). rewrite Hgen. simpl.
      exists (v :: values). split; [done|by constructor].
    + rewrite Hstep, Hgen. simpl. by exists values.
Qed.

End FormatAFacts.

Lemma block_executed_records_yield_their_data_witness :
  Forall (event_record example_loads example_int) [example_block; example_other]
  ∧ ∃ values,
      generate_ipt_blocks example_loads example_int [example_block; example_other]
      = mkGen values None
      ∧ Forall2 (data_parses_to example_loads example_int) [example_block] values.
Proof.
  assert (Forall (event_record example_loads example_int) [example_block; example_other])
    as Hrecords.
  { repeat constructor.
    - exists {[ "event" := JString "block_executed"; "data" := JString "401000" ]}.
      split; [reflexivity|]. split; [by eexists|]. intros _. exists 0x401000.
      by exists {[ "event" := JString "block_executed"; "data" := JString "401000" ]},
        "401000".
    - exists {[ "event" := JString "other" ]}.
      split; [reflexivity|]. split; [by eexists|]. intros [=]. }
  split; [exact Hrecords|].
  exact (block_executed_records_yield_their_data example_loads example_int
           [example_block; example_other] Hrecords).
Defined.

(** The example of the specification. *)
Example format_a_example :
  generate_ipt_blocks example_loads example_int [example_block; example_other]
  = mkGen [0x401000] None.
Proof. by vm_compute. Qed.

(** A record without a type tag ends the generator with an exception, and
    the records after it contribute nothing. *)
Example untagged_record_raises :
  generate_ipt_blocks (λ _, Some (JDict ∅)) example_int [example_other; example_block]
  = mkGen [] (Some KeyError).
Proof. by vm_compute. Qed.

(** * Further properties *)

Local Set Warnings "-clear-no-such-hyp".

(** ** FrameIndex and FaultResolver *)

Section IndexAndResolverMore.

Implicit Types (m : gmap Z (list Frame)) (k : Z) (frames : list Frame) (st : match_state).

Lemma dd_append_insert m k frame :
  dd_append m k frame = <[k := lookup_frames m k ++ [frame]]> m.
Proof.
  unfold dd_append, dd_getitem, lookup_frames.
  destruct (m !! k); simpl; [done|]. by rewrite insert_insert_eq.
Qed.

Lemma foldl_dd_append_nonempty frames m :
  (∀ k l, m !! k = Some l → l ≠ []) →
  ∀ k l,
    foldl (λ frame_map frame,
             dd_append frame_map (page_align (get_frame_va frame)) frame) m frames !! k
    = Some l → l ≠ [].
Proof.
  revert m. induction frames as [|frame frames IH]; intros m Hm; simpl; [done|].
  apply IH. intros k l. rewrite dd_append_insert.
  destruct (decide (page_align (get_frame_va frame) = k)) as [->|Hne].
  - rewrite lookup_insert_eq. intros [= <-]. by destruct (lookup_frames m _).
  - rewrite lookup_insert_ne by done. apply Hm.
Qed.

Lemma candidates_nil frames k :
  Forall (λ frame, page_align (get_frame_va frame) ≠ k) frames → candidates frames k = [].
Proof.
  induction 1 as [|frame frames Hframe _ IH]; simpl; [done|].
  unfold on_page at 1. by rewrite (proj2 (Z.eqb_neq _ _) Hframe).
Qed.

(** X1. The index built from a pool has a key exactly for the virtual
    pages on which the pool has a frame: no group of a freshly built index
    is empty, each group holds the frames of its page in pool order, and a
    page without frames has no key. *)
Theorem build_frame_va_map_keys (frames : list Frame) (k : Z) :
  (build_frame_va_map frames !! k = None
   ↔ Forall (λ frame, page_align (get_frame_va frame) ≠ k) frames)
  ∧ (∀ group, build_frame_va_map frames !! k = Some group →
       group ≠ []
       ∧ group = List.filter (λ frame, page_align (get_frame_va frame) =? k) frames).
Proof.
  pose proof (build_frame_va_map_lookup frames k) as Hlookup.
  assert (∀ k l, build_frame_va_map frames !! k = Some l → l ≠ []) as Hne.
  { apply foldl_dd_append_nonempty. intros k' l. by rewrite lookup_empty. }
  unfold lookup_frames in Hlookup. split.
  - destruct (build_frame_va_map frames !! k) as [group|] eqn:E; simpl in Hlookup.
    + split; [done|]. intros Hall. exfalso.
      apply (Hne k group E).
      rewrite Hlookup. by apply candidates_nil.
    + split; [|done]. intros _. apply Forall_forall. intros frame Hin Hk.
      assert (frame ∈ candidates frames k) as Hc by (by apply elem_of_candidates).
      rewrite <- Hlookup in Hc. by apply elem_of_nil in Hc.
  - intros group E. rewrite E in Hlookup. simpl in Hlookup. split; [|done].
    apply (Hne k group E).
Qed.





(** X3. A fault that no own-process frame answers but some foreign frame
    does is mapped to the dump of a foreign frame, the first one in pool
    order that answers it; the iteration adds one to the foreign-resolved
    counter and leaves the unresolved counter alone. *)
Theorem foreign_pool_is_the_fallback
    (frames foreign_frames : list Frame) (pre : list Fault) (fault : Fault)
    (foreign : Frame) :
  Forall (λ frame, ¬ answers fault frame) frames →
  foreign ∈ foreign_frames →
  answers fault foreign →
  let st := value (match_loop (match_init frames foreign_frames) pre) in
  let st' := value (match_step st fault) in
  ∃ frame before after,
    foreign_frames = before ++ frame :: after
    ∧ answers fault frame
    ∧ Forall (λ f, ¬ answers fault f) before
    ∧ results st' = results st ++ [(fault_page fault, DumpFile frame)]
    ∧ foreign_resolved st' = foreign_resolved st + 1
    ∧ unresolved st' = unresolved st.
Proof.
  intros Hown Hin Hforeign st st'.
  assert (indexes frames foreign_frames st) as [Hst1 Hst2].
  { apply match_loop_indexes, match_init_indexes. }
  pose proof (match_step_cases st fault) as H. simpl in H. rewrite Hst1, Hst2 in H.
  apply select_candidates_None in Hown. rewrite Hown in H.
  destruct (select_frame (candidates foreign_frames _) _) as [frame|] eqn:E.
  - destruct (select_candidates_first _ _ _ E) as (before & after & Heq & Hf & Hbefore).
    exists frame, before, after. subst st'. by rewrite H.
  - apply select_candidates_None in E. rewrite Forall_forall in E.
    by destruct (E foreign Hin).
Qed.

Lemma foreign_pool_is_the_fallback_witness :
  let own := mkFrame 5 0x7000 0x1000 "own.bin" in
  let foreign := mkFrame 6 0x7000 0x9000 "foreign.bin" in
  let fault := mkFault 5 0x7010 0x9abc in
  let st' := value (match_step (match_init [own] [foreign]) fault) in
  ∃ frame before after,
    [foreign] = before ++ frame :: after
    ∧ answers fault frame
    ∧ Forall (λ f, ¬ answers fault f) before
    ∧ results st' = [(0x7000, DumpFile frame)]
    ∧ foreign_resolved st' = 1
    ∧ unresolved st' = 0.
Proof.
  intros own foreign fault st'.
  apply (foreign_pool_is_the_fallback [own] [foreign] [] fault foreign).
  - constructor; [|constructor]. intros [_ Hpa]. vm_compute in Hpa. discriminate.
  - apply list_elem_of_here.
  - split; reflexivity.
Defined.

(** An iteration adds nothing, or one entry that stands for its fault. *)
Lemma match_step_entry frames foreign_frames st fault :
  indexes frames foreign_frames st →
  results (value (match_step st fault)) = results st
  ∨ ∃ entry,
      results (value (match_step st fault)) = results st ++ [entry]
      ∧ resolves frames foreign_frames fault entry.
Proof.
  intros [Hst1 Hst2].
  pose proof (match_step_cases st fault) as H. simpl in H. rewrite Hst1, Hst2 in H.
  destruct (select_frame (candidates frames _) _) as [frame|] eqn:E1.
  - apply select_candidates_Some in E1 as [Hin Hf]. right.
    exists (fault_page fault, DumpFile frame). rewrite H. split; [done|].
    split; [done|]. exists frame. split; [|done]. apply elem_of_app. by left.
  - destruct (select_frame (candidates foreign_frames _) _) as [frame|] eqn:E2.
    + apply select_candidates_Some in E2 as [Hin Hf]. right.
      exists (fault_page fault, DumpFile frame). rewrite H. split; [done|].
      split; [done|]. exists frame. split; [|done]. apply elem_of_app. by right.
    + left. by rewrite H.
Qed.

Lemma match_loop_entries frames foreign_frames page_faults st :
  indexes frames foreign_frames st →
  ∃ resolved new,
    results (value (match_loop st page_faults)) = results st ++ new
    ∧ resolved `sublist_of` page_faults
    ∧ Forall2 (resolves frames foreign_frames) resolved new.
Proof.
  revert st. induction page_faults as [|fault rest IH]; intros st Hst; simpl.
  - exists [], []. by rewrite app_nil_r.
  - destruct (IH (value (match_step st fault)) (match_step_indexes _ _ _ _ Hst))
      as (resolved & new & Hres & Hsub & Hall).
    rewrite Hres.
    destruct (match_step_entry frames foreign_frames st fault Hst)
      as [->|(entry & -> & Hentry)].
    + exists resolved, new. repeat split; [|done]. by apply sublist_cons.
    + exists (fault :: resolved), (entry :: new). rewrite <- app_assoc.
      repeat split; [by apply sublist_skip|by constructor].
Qed.

(** X4. Every entry of the mapping [match_frames] returns stands for one
    of the faults: it pairs the fault's virtual page with the dump file of
    a frame, from one of the two pools, that answers the fault.  The
    entries come in the order of their faults, and no fault has more than
    one. *)
Theorem mapping_entries_stand_for_faults
    (page_faults : list Fault) (frames foreign_frames : list Frame) :
  ∃ resolved,
    resolved `sublist_of` page_faults
    ∧ Forall2 (resolves frames foreign_frames) resolved
              (value (match_frames page_faults frames foreign_frames)).
Proof.
  destruct (match_loop_entries frames foreign_frames page_faults
              (match_init frames foreign_frames) (match_init_indexes _ _))
    as (resolved & new & Hres & Hsub & Hall).
  exists resolved. split; [done|]. rewrite match_frames_unfold. simpl in *.
  by rewrite Hres.
Qed.

Lemma page_align_mono a b : a ≤ b → page_align a ≤ page_align b.
Proof.
  intros Hab. rewrite !page_align_spec. unfold PAGE_SIZE.
  pose proof (Z.div_le_mono a b 0x1000 ltac:(lia) Hab). lia.
Qed.

Lemma insert_by_key_sorted {A} (key : A → Z) x l :
  StronglySorted (λ a b, key a ≤ key b) l →
  StronglySorted (λ a b, key a ≤ key b) (insert_by_key key x l).
Proof.
  induction 1 as [|y l Hl IH Hy]; simpl; [by repeat constructor|].
  destruct (Z.ltb_spec (key x) (key y)) as [Hlt|Hge].
  - constructor; [by constructor|]. constructor; [lia|].
    eapply Forall_impl; [exact Hy|]. simpl. lia.
  - constructor; [done|].
    assert (∀ l', Forall (λ b, key y ≤ key b) l' →
                  Forall (λ b, key y ≤ key b) (insert_by_key key x l')) as Hins.
    { induction 1 as [|z l' Hz Hl' IH']; simpl; [by repeat constructor|].
      destruct (key x <? key z); repeat constructor; done. }
    by apply Hins.
Qed.

Lemma insert_by_key_perm {A} (key : A → Z) x l : insert_by_key key x l ≡ₚ x :: l.
Proof.
  induction l as [|y l IH]; simpl; [done|].
  destruct (key x <? key y); [done|]. rewrite IH. apply Permutation_swap.
Qed.

Lemma foldl_insert_by_key {A} (key : A → Z) l acc :
  StronglySorted (λ a b, key a ≤ key b) acc →
  StronglySorted (λ a b, key a ≤ key b) (foldl (λ acc x, insert_by_key key x acc) acc l)
  ∧ foldl (λ acc x, insert_by_key key x acc) acc l ≡ₚ acc ++ l.
Proof.
  revert acc. induction l as [|x l IH]; intros acc Hacc; simpl.
  - by rewrite app_nil_r.
  - destruct (IH (insert_by_key key x acc) (insert_by_key_sorted key x acc Hacc))
      as [Hs Hp].
    split; [done|]. rewrite Hp, insert_by_key_perm. simpl. apply Permutation_middle.
Qed.

Lemma StronglySorted_sublist {A} (R : relation A) l1 l2 :
  l1 `sublist_of` l2 → StronglySorted R l2 → StronglySorted R l1.
Proof.
  induction 1 as [|x l1 l2 Hsub IH|x l1 l2 Hsub IH]; intros Hs; [done|..].
  - apply StronglySorted_inv in Hs as [Hs Hx]. constructor; [by apply IH|].
    rewrite Forall_forall in *. intros y Hy. apply Hx.
    by eapply elem_of_sublist.
  - apply StronglySorted_inv in Hs as [Hs _]. by apply IH.
Qed.

(** X7. Sorting the faults by virtual address, as [get_ptxed_cmdline] does
    before it resolves them, loses and adds no fault, and makes the
    resolver return the mapping in ascending order of virtual page. *)
Theorem sorted_faults_give_ascending_mapping
    (page_faults : list Fault) (frames foreign_frames : list Frame) :
  let sorted := sort_by_key get_fault_va page_faults in
  sorted ≡ₚ page_faults
  ∧ StronglySorted (λ a b, get_fault_va a ≤ get_fault_va b) sorted
  ∧ StronglySorted Z.le (map fst (value (match_frames sorted frames foreign_frames))).
Proof.
  intros sorted.
  destruct (foldl_insert_by_key get_fault_va page_faults [] (SSorted_nil _))
    as [Hsorted Hperm].
  fold (sort_by_key get_fault_va page_faults) in Hsorted, Hperm. fold sorted in Hsorted, Hperm.
  repeat split; [done..|].
  destruct (match_loop_entries frames foreign_frames sorted
              (match_init frames foreign_frames) (match_init_indexes _ _))
    as (resolved & new & Hres & Hsub & Hall).
  rewrite match_frames_unfold. simpl in *. rewrite Hres.
  pose proof (StronglySorted_sublist _ _ _ Hsub Hsorted) as Hresolved.
  clear Hres Hsub. induction Hall as [|fault entry resolved new [Hpage _] Hall IH]; simpl.
  - constructor.
  - apply StronglySorted_inv in Hresolved as [Hresolved Hfault].
    constructor; [by apply IH|].
    clear IH Hresolved. induction Hall as [|fault' entry' resolved new [Hpage' _] _ IH]; simpl.
    + constructor.
    + apply Forall_cons in Hfault as [Hle Hfault]. constructor; [|by apply IH].
      rewrite Hpage, Hpage'. by apply page_align_mono.
Qed.

End IndexAndResolverMore.

(** ** ManifestBuilder and the pipeline *)

Section ManifestAndPipelineMore.

Implicit Types (analysis_dir : Path) (fs : FileSystem) (pages : list string).




Lemma trace_bind {A B} (m : Traced A) (f : A → Traced B) :
  trace (m ≫= f) = trace m ++ trace (f (value m)).
Proof. done. Qed.

Lemma value_bind {A B} (m : Traced A) (f : A → Traced B) :
  value (m ≫= f) = value (f (value m)).
Proof. done. Qed.

Lemma split_slash_no_slash s : Forall (λ c, has_slash c = false) (split_slash s).
Proof.
  induction s as [|c s IH]; simpl; [by repeat constructor|].
  destruct (Ascii.eqb c "/") eqn:Hc; [by constructor|].
  destruct (split_slash s) as [|h t]; simpl.
  - repeat constructor. simpl. by rewrite Hc.
  - apply Forall_cons in IH as [Hh Ht]. constructor; [|done]. simpl. by rewrite Hc, Hh.
Qed.

Lemma split_slash_single s : has_slash s = false → split_slash s = [s].
Proof.
  induction s as [|c s IH]; simpl; [done|].
  intros [Hc Hs]%orb_false_iff. by rewrite Hc, (IH Hs).
Qed.

Lemma last_elem_of {A} (l : list A) d : List.last l d = d ∨ List.last l d ∈ l.
Proof.
  induction l as [|x [|y l] IH]; [by left|right; apply list_elem_of_here|].
  destruct IH as [IH|IH]; [by left|]. right. by apply list_elem_of_further.
Qed.

(** A path component is parsed back to itself. *)
Lemma parse_path_component name :
  has_slash name = false → keep_part name = true → parse_path name = mkPath "" [name].
Proof.
  intros Hslash Hkeep. unfold parse_path. rewrite (split_slash_single name Hslash).
  simpl. rewrite Hkeep. f_equal.
  destruct name as [|c name]; [done|]. simpl in Hslash.
  apply orb_false_iff in Hslash as [Hc _].
  destruct (Ascii.eqb_spec c "/") as [->|Hne]; [done|].
  unfold parse_root. destruct c as [[] [] [] [] [] [] [] []]; try done.
Qed.

(** X6. Only the base name of a frame's dump file is used: whatever
    directories the name carries, the manifest builder looks for the dump
    directly in [ipt/dumps] under the analysis directory, and the name it
    appends holds no slash.  An empty base name makes it look at
    [ipt/dumps] itself. *)
Theorem dump_path_is_directly_in_dumps (analysis_dir : Path) (fname : string) :
  let name := path_name (parse_path fname) in
  has_slash name = false
  ∧ dump_path analysis_dir fname
    = mkPath (root analysis_dir)
             (parts analysis_dir ++ ["ipt"; "dumps"]
              ++ (if String.eqb name "" then [] else [name])).
Proof.
  intros name.
  assert (name = "" ∨ has_slash name = false ∧ keep_part name = true) as Hname.
  { subst name. unfold path_name, parse_path. simpl.
    destruct (last_elem_of (List.filter keep_part (split_slash fname)) "")
      as [->|Hin]; [by left|right].
    rewrite list_elem_of_In, filter_In, <- list_elem_of_In in Hin.
    destruct Hin as [Hin Hkeep]. split; [|done].
    pose proof (split_slash_no_slash fname) as Hall. rewrite Forall_forall in Hall.
    by apply Hall. }
  unfold dump_path. fold name.
  assert (analysis_dir // "ipt" // "dumps"
          = mkPath (root analysis_dir) (parts analysis_dir ++ ["ipt"; "dumps"])) as ->.
  { unfold path_div. simpl. by rewrite <- app_assoc. }
  destruct Hname as [->|[Hslash Hkeep]].
  - split; [done|]. unfold path_div. simpl. by rewrite app_nil_r.
  - split; [done|]. unfold path_div. rewrite (parse_path_component name Hslash Hkeep).
    simpl. rewrite <- app_assoc. simpl.
    unfold keep_part in Hkeep. apply andb_true_iff in Hkeep as [Hne _].
    destruct (String.eqb name ""); [done|done].
Qed.






Section Aligned.

Variable load_drakvuf_output : string → list Event.

(** A run that passes the alignment check, step by step. *)
Lemma get_ptxed_cmdline_aligned fs analysis_dir cr3_value pt_stream use_blocks :
  is_page_aligned cr3_value = true →
  let codemon_out := load_drakvuf_output (path_str (analysis_dir // "codemon.log")) in
  let faults := sort_by_key get_fault_va (faults_in_process cr3_value codemon_out) in
  let frames := frames_in_process cr3_value codemon_out in
  let foreign_frames := frames_out_process cr3_value codemon_out in
  let mappings := run_mappings cr3_value codemon_out in
  get_ptxed_cmdline load_drakvuf_output fs analysis_dir cr3_value pt_stream use_blocks
  = mkTraced
      ([Log DEBUG "Analysis directory: %s" [ArgStr (path_str analysis_dir)];
        Log DEBUG "CR3: %#x" [ArgInt cr3_value];
        LoadLog (path_str (analysis_dir // "codemon.log"));
        Log INFO "%d frames dumped from this process" [ArgInt (Z.of_nat (length frames))];
        Log INFO "%d frames outside this process"
            [ArgInt (Z.of_nat (length foreign_frames))];
        Log INFO "%d faults in process"
            [ArgInt (Z.of_nat (length (faults_in_process cr3_value codemon_out)))]]
       ++ trace (debug_faults faults)
       ++ trace (match_frames faults frames foreign_frames)
       ++ trace (manifest_loop analysis_dir fs [] mappings)
       ++ [Log INFO "IPT: Succesfully generated ptxed command line" []])
      (Some (decoder cr3_value use_blocks
             ++ flat_map (contribution analysis_dir fs) mappings
             ++ ["--pt"; pt_stream])).
Proof.
  intros H. simpl. unfold get_ptxed_cmdline. rewrite H.
  cbn [negb mbind mret Traced_bind Traced_ret trace value log_debug log_info emit
       load_log app].
  fold (faults_in_process cr3_value
          (load_drakvuf_output (path_str (analysis_dir // "codemon.log")))).
  fold (frames_in_process cr3_value
          (load_drakvuf_output (path_str (analysis_dir // "codemon.log")))).
  fold (frames_out_process cr3_value
          (load_drakvuf_output (path_str (analysis_dir // "codemon.log")))).
  fold (decoder cr3_value use_blocks).
  rewrite !trace_bind, !value_bind. simpl.
  fold (run_mappings cr3_value
          (load_drakvuf_output (path_str (analysis_dir // "codemon.log")))).
  by rewrite manifest_loop_value.
Qed.


End Aligned.


(** X9. Events that are neither frames nor faults of the target process
    have no influence on a run: dropping them from the log changes neither
    the result nor any log record. *)
Theorem irrelevant_events_are_ignored
    (load_drakvuf_output : string → list Event) (fs : FileSystem) (analysis_dir : Path) (cr3_value : Z)
    (pt_stream : string) (use_blocks : bool) :
  get_ptxed_cmdline (λ path, List.filter (relevant cr3_value) (load_drakvuf_output path))
                    fs analysis_dir cr3_value pt_stream use_blocks
  = get_ptxed_cmdline load_drakvuf_output fs analysis_dir cr3_value pt_stream use_blocks.
Proof.
  assert (∀ log, faults_in_process cr3_value (List.filter (relevant cr3_value) log)
                 = faults_in_process cr3_value log) as Hfaults.
  { intros log. unfold faults_in_process, select_cr3, omap.
    induction log as [|[f|f|tag] log IH]; simpl in *; [done| |done|done].
    change (cr3_of f) with (fault_cr3 f).
    destruct (fault_cr3 f =? cr3_value) eqn:E; simpl; [|done].
    change (cr3_of f) with (fault_cr3 f). by rewrite E, IH. }
  assert (∀ log, omap (M:=list) (λ obj, match obj with ExecFrame f => Some f | _ => None end)
                   (List.filter (relevant cr3_value) log)
                 = omap (M:=list) (λ obj, match obj with ExecFrame f => Some f | _ => None end)
                     log) as Hframes.
  { unfold omap. induction log as [|[f|f|tag] log IH]; simpl in *; [done|..|done].
    - by destruct (fault_cr3 f =? cr3_value).
    - by rewrite IH. }
  destruct (is_page_aligned cr3_value) eqn:Haligned.
  - rewrite !get_ptxed_cmdline_aligned by done. cbv beta zeta.
    unfold run_mappings, frames_in_process, frames_out_process.
    by rewrite !Hfaults, !Hframes.
  - unfold get_ptxed_cmdline. by rewrite Haligned.
Qed.

End ManifestAndPipelineMore.

(** ** Diagnostics: [debug_faults] *)

Section DebugFaultsMore.

Lemma run_of_S beg n : run_of beg (S n) = run_of beg n ++ [beg + 0x1000 * Z.of_nat n].
Proof. unfold run_of. by rewrite seq_S, map_app. Qed.

Lemma run_of_hd_last beg n :
  hd 0 (run_of beg (S n)) = beg
  ∧ List.last (run_of beg (S n)) 0 = beg + 0x1000 * Z.of_nat n.
Proof.
  split.
  - unfold run_of. simpl. lia.
  - rewrite run_of_S. apply last_last.
Qed.

Lemma debug_ranges_runs all l a ranges current :
  Forall (λ x, x ∈ all) l →
  run_up_to all current a →
  Forall (is_run all) ranges →
  Forall (is_run all) (debug_ranges ranges current (zip (a :: l) l)).
Proof.
  revert a ranges current.
  induction l as [|b l IH]; intros a ranges current Hl Hcur Hranges; simpl; [done|].
  apply Forall_cons in Hl as [Hb Hl].
  destruct Hcur as (beg & n & Hrun & Hin).
  destruct (Z.eqb_spec (b - a) 0x1000) as [Hstep|Hstep].
  - apply IH; [done| |done].
    exists beg, (S n). split.
    + rewrite Hrun, (run_of_S beg (S n)). do 2 f_equal.
      rewrite run_of_S in Hrun. apply app_inj_tail in Hrun as [_ ->]. lia.
    + apply Forall_app. split; [done|by constructor].
  - apply IH; [done| |].
    + exists b, 0%nat. split; [unfold run_of; simpl; f_equal; lia|by repeat constructor].
    + apply Forall_app. split; [done|]. constructor; [|done]. by exists beg, n.
Qed.

Lemma debug_ranges_length ranges current pairs :
  length (debug_ranges ranges current pairs)
  = (length ranges + length (List.filter is_break pairs))%nat.
Proof.
  revert ranges current. induction pairs as [|[a b] pairs IH]; intros ranges current; simpl.
  - lia.
  - unfold is_break at 1. simpl. destruct (b - a =? 0x1000); simpl; rewrite IH.
    + done.
    + rewrite length_app. simpl. lia.
Qed.

Lemma fault_ranges_runs page_faults :
  Forall (is_run (faulted_pages page_faults)) (fault_ranges page_faults).
Proof.
  unfold fault_ranges. destruct (faulted_pages page_faults) as [|a l] eqn:E; [constructor|].
  simpl tail. apply debug_ranges_runs; [| |constructor].
  - apply Forall_forall. intros x Hx. by apply list_elem_of_further.
  - exists a, 0%nat. split; [unfold run_of; simpl; f_equal; lia|].
    repeat constructor.
Qed.

Lemma elem_of_faulted_pages page_faults x :
  x ∈ faulted_pages page_faults → ∃ fault, fault ∈ page_faults ∧ x = fault_page fault.
Proof.
  unfold faulted_pages, sort_by_key. intros Hx.
  destruct (foldl_insert_by_key id
              (remove_dups (map (λ fault, page_align (get_fault_va fault)) page_faults))
              [] (SSorted_nil _)) as [_ Hperm].
  rewrite Hperm in Hx. simpl in Hx. rewrite elem_of_remove_dups in Hx.
  apply list_elem_of_fmap in Hx as (fault & -> & Hin). by exists fault.
Qed.

(** X10. Every record [debug_faults] logs describes a non-empty run of
    consecutive faulted pages: it gives the first page, the last byte of
    the last page and the number of pages of the run, and each of these
    pages is the page of a fault.  No range is empty, so neither end of a
    range is ever missing. *)
Theorem debug_faults_logs_page_runs (page_faults : list Fault) :
  Forall (λ e, ∃ beg n,
            e = Log DEBUG "%#016x - %#016x (%d pages)"
                  [ArgInt beg; ArgInt (beg + 0x1000 * Z.of_nat n + 0xFFF);
                   ArgInt (Z.of_nat (S n))]
            ∧ ∀ i, (i ≤ n)%nat →
                ∃ fault, fault ∈ page_faults
                         ∧ fault_page fault = beg + 0x1000 * Z.of_nat i)
         (trace (debug_faults page_faults)).
Proof.
  change (trace (debug_faults page_faults))
    with (map (λ chunk,
                 let beg := hd 0 chunk in
                 let end_ := List.last chunk 0 + 0xFFF in
                 Log DEBUG "%#016x - %#016x (%d pages)"
                   [ArgInt beg; ArgInt end_; ArgInt ((end_ + 1 - beg) / 0x1000)])
              (fault_ranges page_faults)).
  apply Forall_map. eapply Forall_impl; [apply fault_ranges_runs|].
  intros chunk (beg & n & -> & Hin). cbv beta zeta.
  destruct (run_of_hd_last beg n) as [-> ->].
  exists beg, n. split.
  - do 4 f_equal. f_equal.
    replace (beg + 4096 * Z.of_nat n + 4095 + 1 - beg) with (Z.of_nat (S n) * 4096) by lia.
    by rewrite Z.div_mul.
  - intros i Hi. rewrite Forall_forall in Hin.
    destruct (elem_of_faulted_pages page_faults (beg + 0x1000 * Z.of_nat i))
      as (fault & Hfault & Hpage).
    + apply Hin. unfold run_of. apply list_elem_of_fmap. exists i. split; [done|].
      apply list_elem_of_In, in_seq. lia.
    + by exists fault.
Qed.

Lemma filter_no_break (pairs : list (Z * Z)) :
  Forall (λ pair, pair.2 - pair.1 = 0x1000) pairs → List.filter is_break pairs = [].
Proof.
  induction 1 as [|pair pairs Hpair _ IH]; simpl; [done|].
  unfold is_break at 1. by rewrite Hpair.
Qed.

(** X11. [debug_faults] logs one record for each break between two
    neighbouring faulted pages and none for the run after the last break:
    faults whose pages are all consecutive, and a single fault, are logged
    with no record at all. *)
Theorem debug_faults_logs_one_record_per_break (page_faults : list Fault) :
  let pages := faulted_pages page_faults in
  length (trace (debug_faults page_faults))
  = length (List.filter is_break (zip pages (tail pages)))
  ∧ (Forall (λ pair, pair.2 - pair.1 = 0x1000) (zip pages (tail pages))
     → trace (debug_faults page_faults) = []).
Proof.
  intros pages.
  assert (length (trace (debug_faults page_faults))
          = length (List.filter is_break (zip pages (tail pages)))) as Hlen.
  { unfold debug_faults. simpl. rewrite length_map.
    fold (faulted_pages page_faults). fold pages. by rewrite debug_ranges_length. }
  split; [done|]. intros Hall. apply length_zero_iff_nil.
  by rewrite Hlen, (filter_no_break _ Hall).
Qed.

End DebugFaultsMore.

(** ** TraceNormalizer, on arbitrary bytes *)

Section NormalizerMore.

Implicit Types (line : bytes) (c : byte).

Lemma lead2_code_point c (x : N) :
  in_range 0xC2 0xDF c = true → (0x80 ≤ N.land (Byte.to_N c) 0x1F * 64 + x)%N.
Proof.
  destruct c; try discriminate; intros _;
    set (k := N.land _ _); vm_compute in k; subst k; lia.
Qed.

Lemma lead3_code_point c c1 (y : N) :
  in_range 0xE0 0xEF c = true →
  (if (Byte.to_N c =? 0xE0)%N then in_range 0xA0 0xBF c1
   else if (Byte.to_N c =? 0xED)%N then in_range 0x80 0x9F c1
   else is_cont c1) = true →
  (0x80 ≤ (N.land (Byte.to_N c) 0x0F * 64 + cont_bits c1) * 64 + y)%N.
Proof.
  destruct c; try discriminate; intros _;
    set (k := N.land _ 0x0F); vm_compute in k; subst k; try lia.
  destruct c1; try discriminate; intros _;
    set (k := cont_bits _); vm_compute in k; subst k; lia.
Qed.

Lemma lead4_code_point c c1 (y z : N) :
  in_range 0xF0 0xF4 c = true →
  (if (Byte.to_N c =? 0xF0)%N then in_range 0x90 0xBF c1
   else if (Byte.to_N c =? 0xF4)%N then in_range 0x80 0x8F c1
   else is_cont c1) = true →
  (0x80 ≤ ((N.land (Byte.to_N c) 0x07 * 64 + cont_bits c1) * 64 + y) * 64 + z)%N.
Proof.
  destruct c; try discriminate; intros _;
    set (k := N.land _ 0x07); vm_compute in k; subst k; try lia.
  destruct c1; try discriminate; intros _;
    set (k := cont_bits _); vm_compute in k; subst k; lia.
Qed.

(** Only ASCII bytes decode to ASCII characters. *)
Lemma decode_ascii_inv (bs : bytes) (s : list N) :
  decode bs = Some s →
  Forall (λ n, (n < 0x80)%N) s →
  s = map Byte.to_N bs.
Proof.
  revert s. induction bs as [|b0 r0 IH]; intros s; simpl.
  - by intros [= <-].
  - destruct (N.ltb_spec (Byte.to_N b0) 0x80) as [Hlt|Hge].
    + destruct (decode r0) as [s'|]; simpl; [|done].
      intros [= <-] [_ Hs']%Forall_cons. f_equal. by apply IH.
    + intros Hdec Hs. exfalso.
      assert (∀ n (o : option (list N)),
                cons n <$> o = Some s → (0x80 ≤ n)%N → False) as Hhead.
      { intros n [s''|]; simpl; [|done]. intros [= <-] Hn.
        apply Forall_cons in Hs as [Hlt _]. lia. }
      destruct (in_range 0xC2 0xDF b0) eqn:H2.
      { destruct r0 as [|b1 r1]; [done|]. destruct (is_cont b1); [|done].
        eapply Hhead; [exact Hdec|by apply lead2_code_point]. }
      destruct (in_range 0xE0 0xEF b0) eqn:H3.
      { destruct r0 as [|b1 [|b2 r2]]; [done..|].
        destruct (_ && is_cont b2) eqn:Hc; [|done].
        apply andb_true_iff in Hc as [Hc _].
        eapply Hhead; [exact Hdec|by apply lead3_code_point]. }
      destruct (in_range 0xF0 0xF4 b0) eqn:H4; [|done].
      destruct r0 as [|b1 [|b2 [|b3 r3]]]; [done..|].
      destruct (_ && is_cont b2 && is_cont b3) eqn:Hc; [|done].
      apply andb_true_iff in Hc as [[Hc _]%andb_true_iff _].
      eapply Hhead; [exact Hdec|by apply lead4_code_point].
Qed.

Lemma in_hexdigits_ascii (s : list N) :
  forallb in_hexdigits s = true → Forall (λ n, (n < 0x80)%N) s.
Proof.
  intros H. apply Forall_forall. intros n Hn.
  rewrite forallb_forall in H. specialize (H n (proj1 (list_elem_of_In _ _) Hn)).
  unfold in_hexdigits in H.
  apply orb_true_iff in H as [H|H]; apply andb_true_iff in H as [_ H%N.leb_le]; lia.
Qed.

Lemma hex_prefix_ascii line : hex_prefix line = true → is_ascii (take 16 line).
Proof.
  unfold hex_prefix, is_ascii. rewrite <- forallb_to_N. intros H%in_hexdigits_ascii.
  by apply Forall_fmap in H.
Qed.

(** The guard of [generate_ptxed] is the test on the bytes themselves. *)
Lemma ptxed_guard line s :
  decode (take 16 line) = Some s → forallb in_hexdigits s = hex_prefix line.
Proof.
  intros Hdec. destruct (forallb in_hexdigits s) eqn:Hs.
  - rewrite (decode_ascii_inv _ _ Hdec (in_hexdigits_ascii _ Hs)) in Hs.
    by rewrite forallb_to_N in Hs.
  - destruct (hex_prefix line) eqn:Hhex; [|done].
    rewrite (decode_ascii _ (hex_prefix_ascii _ Hhex)) in Hdec. injection Hdec as <-.
    rewrite forallb_to_N in Hs. unfold hex_prefix in Hhex. congruence.
Qed.

(** One iteration on any line. *)
Lemma ptxed_step_cases prev_block line :
  ptxed_step prev_block line =
  if prev_block then
    if hex_prefix line then
      match line with
      | [] => Raise [] ValueError
      | _ => ptxed_classify [hex_value (take 16 line)] false line
      end
    else
      match decode (take 16 line) with
      | None => Raise [] UnicodeDecodeError
      | Some _ => ptxed_classify [] true line
      end
  else ptxed_classify [] false line.
Proof.
  unfold ptxed_step. destruct prev_block; [|done].
  destruct (decode (take 16 line)) as [s|] eqn:Hdec.
  - rewrite (ptxed_guard line s Hdec). destruct (hex_prefix line) eqn:Hhex; [|done].
    destruct line as [|c line]; [done|].
    by rewrite int16_hex_value.
  - destruct (hex_prefix line) eqn:Hhex; [|done].
    by rewrite (decode_ascii _ (hex_prefix_ascii _ Hhex)) in Hdec.
Qed.

Lemma ptxed_classify_yields ys prev_block line :
  step_yields (ptxed_classify ys prev_block line) = ys.
Proof.
  unfold ptxed_classify. destruct (existsb _ _); [done|].
  destruct (decode _); [|done]. by destruct (bool_decide _).
Qed.

(** What the second half of the loop body does to the flag: it sets it
    on the marker line, and on no other line. *)
Lemma ptxed_classify_flag ys prev_block line prev_block' :
  ptxed_classify ys prev_block line = Next ys prev_block' →
  prev_block' = prev_block || is_marker line.
Proof.
  unfold ptxed_classify. fold (is_annotation line).
  destruct (is_annotation line) eqn:Hann.
  - intros [= <-]. destruct (is_marker line) eqn:Hm; [|by rewrite orb_false_r].
    apply marker_not_annotation in Hm. congruence.
  - destruct (decode (strip line)) as [s|] eqn:Hdec; [|done].
    destruct (bool_decide_reflect (s = str "[block]")) as [->|Hne]; intros [= <-].
    + assert (is_marker line = true) as ->; [|by rewrite orb_true_r].
      apply bool_decide_eq_true. apply map_to_N_inj.
      symmetry. apply (decode_ascii_inv _ _ Hdec). by repeat constructor.
    + assert (is_marker line = false) as ->; [|by rewrite orb_false_r].
      apply bool_decide_eq_false. intros Hstrip. apply Hne.
      rewrite Hstrip in Hdec. by injection Hdec as <-.
Qed.

Lemma digit_bounds c : in_hexdigits (Byte.to_N c) = true → 0 ≤ digit c < 16.
Proof. destruct c; try discriminate; intros _; vm_compute; split; discriminate || done. Qed.

Lemma hex_value_bounds (bs : bytes) acc :
  forallb (λ c, in_hexdigits (Byte.to_N c)) bs = true →
  0 ≤ acc →
  0 ≤ foldl (λ acc c, acc * 16 + digit c) acc bs < (acc + 1) * 16 ^ Z.of_nat (length bs).
Proof.
  revert acc. induction bs as [|c bs IH]; intros acc; simpl foldl; simpl length.
  - intros _ Hacc. change (16 ^ Z.of_nat 0) with 1. lia.
  - intros [Hc Hbs]%andb_true_iff Hacc.
    pose proof (digit_bounds c Hc) as Hd.
    specialize (IH (acc * 16 + digit c) Hbs ltac:(lia)).
    rewrite Nat2Z.inj_succ, Z.pow_succ_r by lia.
    assert (0 < 16 ^ Z.of_nat (length bs)) by (apply Z.pow_pos_nonneg; lia).
    nia.
Qed.

Lemma hex_prefix_value_bounds line :
  hex_prefix line = true → 0 ≤ hex_value (take 16 line) < 2 ^ 64.
Proof.
  intros Hhex. pose proof (hex_value_bounds (take 16 line) 0 Hhex ltac:(lia)) as H.
  fold (hex_value (take 16 line)) in H.
  assert (16 ^ Z.of_nat (length (take 16 line)) ≤ 16 ^ 16) as Hpow.
  { apply Z.pow_le_mono_r; [lia|]. rewrite length_take. lia. }
  change (16 ^ 16) with (2 ^ 64) in Hpow. lia.
Qed.

(** X12. Whether a line makes [generate_ptxed] yield depends only on the
    flag and on the first sixteen bytes of the line, whatever bytes follow
    and whether or not they decode: a non-empty line yields exactly when
    the flag is set and these bytes are all among [0123456789abcdef], and
    what it yields is their hexadecimal value, which fits 64 bits. *)
Theorem ptxed_line_yields_on_hex_prefix (prev_block : bool) (line : bytes) :
  line ≠ [] →
  step_yields (ptxed_step prev_block line)
  = (if prev_block && hex_prefix line then [hex_value (take 16 line)] else [])
  ∧ (hex_prefix line = true → 0 ≤ hex_value (take 16 line) < 2 ^ 64).
Proof.
  intros Hne. split; [|apply hex_prefix_value_bounds].
  rewrite ptxed_step_cases. destruct prev_block; simpl.
  - destruct (hex_prefix line).
    + destruct line; [done|]. apply ptxed_classify_yields.
    + destruct (decode _); [apply ptxed_classify_yields|done].
  - apply ptxed_classify_yields.
Qed.

Lemma ptxed_line_yields_on_hex_prefix_witness :
  let line := lit "00007ff6a1b2c3d4 mov" ++ [Byte.xff; Byte.x0a] in
  line ≠ []
  ∧ step_yields (ptxed_step true line) = [0x7ff6a1b2c3d4]
  ∧ ptxed_step true line = Raise [0x7ff6a1b2c3d4] UnicodeDecodeError.
Proof.
  intros line. assert (line ≠ []) as Hne by discriminate.
  split; [exact Hne|].
  destruct (ptxed_line_yields_on_hex_prefix true line Hne) as [Hyield _].
  split; [exact Hyield|reflexivity].
Defined.

Lemma ptxed_step_yields_bounded prev_block line :
  Forall (λ v, 0 ≤ v < 2 ^ 64) (step_yields (ptxed_step prev_block line)).
Proof.
  rewrite ptxed_step_cases. destruct prev_block; simpl.
  - destruct (hex_prefix line) eqn:Hhex.
    + destruct line; [constructor|]. rewrite ptxed_classify_yields.
      repeat constructor; by apply hex_prefix_value_bounds.
    + destruct (decode _); [rewrite ptxed_classify_yields|]; constructor.
  - rewrite ptxed_classify_yields. constructor.
Qed.

(** X13. Every value [generate_ptxed] yields is a 64-bit instruction
    pointer: it lies between 0 and 2^64 - 1, whatever bytes the stream
    holds. *)
Theorem ptxed_values_fit_64_bits (stdout : list bytes) :
  Forall (λ v, 0 ≤ v < 2 ^ 64) (yielded (generate_ptxed stdout)).
Proof.
  unfold generate_ptxed. generalize false as prev_block.
  induction stdout as [|line rest IH]; intros prev_block; simpl; [constructor|].
  pose proof (ptxed_step_yields_bounded prev_block line) as Hstep.
  destruct (ptxed_step prev_block line) as [ys prev_block'|ys e]; simpl in *; [|done].
  apply Forall_app. split; [done|apply IH].
Qed.

Lemma ptxed_classify_result ys prev_block line :
  match ptxed_classify ys prev_block line with
  | Next ys' prev_block' => ys' = ys ∧ prev_block' = prev_block || is_marker line
  | Raise ys' _ => ys' = ys
  end.
Proof.
  pose proof (ptxed_classify_yields ys prev_block line) as Hy.
  destruct (ptxed_classify ys prev_block line) as [ys' pb'|ys' e] eqn:Hc;
    simpl in Hy; subst ys'; [|done].
  split; [done|]. by apply (ptxed_classify_flag ys).
Qed.

(** An iteration spends the flag on what it yields, and only a marker
    line sets the flag again. *)
Lemma ptxed_step_budget prev_block line :
  match ptxed_step prev_block line with
  | Next ys prev_block' =>
      (length ys + (if prev_block' then 1 else 0)
       ≤ (if prev_block then 1 else 0) + (if is_marker line then 1 else 0))%nat
  | Raise ys _ => (length ys ≤ if prev_block then 1 else 0)%nat
  end.
Proof.
  rewrite ptxed_step_cases. destruct prev_block.
  - destruct (hex_prefix line).
    + destruct line as [|c line]; [simpl; lia|].
      pose proof (ptxed_classify_result [hex_value (take 16 (c :: line))] false (c :: line))
        as H.
      destruct (ptxed_classify _ _ _) as [ys pb'|ys e].
      * destruct H as [-> ->]. simpl. destruct (is_marker _); simpl; lia.
      * subst ys. simpl. lia.
    + destruct (decode (take 16 line)); [|simpl; lia].
      pose proof (ptxed_classify_result [] true line) as H.
      destruct (ptxed_classify _ _ _) as [ys pb'|ys e].
      * destruct H as [-> ->]. simpl. lia.
      * subst ys. simpl. lia.
  - pose proof (ptxed_classify_result [] false line) as H.
    destruct (ptxed_classify _ _ _) as [ys pb'|ys e].
    + destruct H as [-> ->]. simpl. destruct (is_marker _); simpl; lia.
    + subst ys. simpl. lia.
Qed.

Lemma ptxed_loop_yields_le_markers prev_block stdout :
  (length (yielded (ptxed_loop prev_block stdout))
   ≤ (if prev_block then 1 else 0) + length (List.filter is_marker stdout))%nat.
Proof.
  revert prev_block. induction stdout as [|line rest IH]; intros prev_block; simpl.
  - lia.
  - pose proof (ptxed_step_budget prev_block line) as Hstep.
    destruct (ptxed_step prev_block line) as [ys prev_block'|ys e]; simpl.
    + specialize (IH prev_block'). rewrite length_app.
      destruct (is_marker line); simpl; lia.
    + destruct (is_marker line); simpl; lia.
Qed.

(** X14. [generate_ptxed] never yields more addresses than the stream has
    marker lines: every address it yields uses up the flag that one
    [[block]] line set. *)
Theorem ptxed_yields_at_most_one_per_marker (stdout : list bytes) :
  (length (yielded (generate_ptxed stdout)) ≤ length (List.filter is_marker stdout))%nat.
Proof.
  pose proof (ptxed_loop_yields_le_markers false stdout) as H. simpl in H.
  unfold generate_ptxed. lia.
Qed.



End NormalizerMore.

Section FormatAMore.

Variable json_loads : bytes → option jdoc.
Variable int_str16 : string → option Z.


Lemma ipt_blocks_step_yield line (y : option Z) :
  ipt_blocks_step json_loads int_str16 line = inr y →
  match y with
  | Some v => tagged json_loads line = true ∧ data_parses_to json_loads int_str16 line v
  | None => tagged json_loads line = false
  end.
Proof.
  unfold ipt_blocks_step, tagged, data_parses_to.
  destruct (json_loads line) as [[entry|]|]; [|done..].
  destruct (entry !! "event") as [event|] eqn:Hevent; [|done].
  rewrite (bool_decide_ext (Some event = Some (JString "block_executed"))
                           (event = JString "block_executed")) by naive_solver.
  destruct (bool_decide (event = JString "block_executed")).
  - destruct (entry !! "data") as [[data|]|] eqn:Hdata; [|done..].
    destruct (int_str16 data) as [v|] eqn:Hv; [|done].
    intros [= <-]. split; [done|]. by exists entry, data.
  - by intros [= <-].
Qed.

(** X17. On any stream, well formed or not, every value
    [generate_ipt_blocks] yields is the data field, parsed as hexadecimal,
    of a record tagged ["block_executed"]: the values are those of the
    tagged records among the lines read, in order, and when no exception
    ends the sequence all lines have been read. *)
Theorem ipt_blocks_values_come_from_tagged_records (stdout : list bytes) :
  ∃ read,
    read `prefix_of` stdout
    ∧ Forall2 (data_parses_to json_loads int_str16)
              (List.filter (tagged json_loads) read)
              (yielded (generate_ipt_blocks json_loads int_str16 stdout))
    ∧ (raised (generate_ipt_blocks json_loads int_str16 stdout) = None → read = stdout).
Proof.
  induction stdout as [|line rest (read & Hprefix & Hvalues & Hall)]; simpl.
  - exists []. repeat split; [done|constructor].
  - destruct (ipt_blocks_step json_loads int_str16 line) as [e|y] eqn:Hstep; simpl.
    + exists []. repeat split; [apply prefix_nil|constructor|done].
    + apply ipt_blocks_step_yield in Hstep.
      exists (line :: read). split; [by apply prefix_cons|]. simpl.
      destruct y as [v|].
      * destruct Hstep as [-> Hv]. split; [by constructor|]. by intros ->%Hall.
      * rewrite Hstep. split; [done|]. by intros ->%Hall.
Qed.

End FormatAMore.
